(** * GitHub Issue Notebooks: symbol table and notebook kernel

    A shallow embedding of two source files of the extension,

    - [src/parser/symbols.ts]: the qualifier schema, the [SymbolTable]
      class and [fillSymbols] (modules [Nodes] and [Symbols]);
    - the notebook provider: [escapeHtml], the [cmp] namespace and the
      post-processing of the fetched items (module [Provider]); the
      class [NotebookCellExecution] and the run of a cell (module
      [Kernel]); lock state and storage (module [Notebook]); the class
      [NotebookDocumentExecution] and the run of a document (module
      [Documents]),

    followed by their properties, one module of facts for each.

    Conventions.  JavaScript objects that are compared by identity (the
    members of a [Set], the keys of a [WeakMap]) carry an explicit
    identity; mutable state is threaded explicitly; an [await] is a point
    where the environment takes a turn. *)

From Stdlib Require Import ZArith String Ascii List Lia Bool DecimalString Sorted.
From stdpp Require Import base gmap sets list strings.

(* ===================================================================== *)
(** * Syntax tree *)
(* ===================================================================== *)

Module Nodes.

(** Modelled from the spec: [src/parser/nodes.ts] ([Node], [NodeType],
    [Utils.walk]) is not among the sources.  The spec lists the node
    kinds (Missing, Literal, VariableName, VariableDefinition,
    QualifiedValue, Query, QueryDocument), says that every node carries
    its [start, end) range, that a Query is an ordered sequence of terms
    and a QueryDocument an ordered sequence of statements. *)
Record Range := { start : nat; end_ : nat }.

Record VariableNameNode := { vn_range : Range; vn_value : string }.

#[warnings="-register-all"]
Inductive Node :=
| Missing (r : Range)
| Literal (r : Range) (value : string)
| VariableName (n : VariableNameNode)
| VariableDefinition (r : Range) (name : VariableNameNode) (value : Node)
| QualifiedValue (r : Range) (not : bool) (qualifier : Node) (value : Node)
| Query (r : Range) (nodes : list Node)
| QueryDocument (r : Range) (nodes : list Node).

(** Modelled from the spec: [Utils.walk(node, callback)] "re-walks the
    tree"; the model is the sequence of nodes handed to the callback, a
    node before its children and children in source order. *)
Fixpoint walk (node : Node) : list Node :=
  node ::
  match node with
  | Missing _ | Literal _ _ | VariableName _ => []
  | VariableDefinition _ name value => VariableName name :: walk value
  | QualifiedValue _ _ qualifier value => walk qualifier ++ walk value
  | Query _ nodes | QueryDocument _ nodes =>
      (fix children (l : list Node) : list Node :=
         match l with
         | [] => []
         | n :: l' => walk n ++ children l'
         end) nodes
  end.

(** [node._type === NodeType.VariableDefinition] *)
Definition isVariableDefinition (node : Node) : bool :=
  match node with
  | VariableDefinition _ _ _ => true
  | _ => false
  end.

End Nodes.

(* ===================================================================== *)
(** * [src/parser/symbols.ts] *)
(* ===================================================================== *)

Module Symbols.
Import Nodes.

Inductive ValueType :=
| Number | Date | BaseBranch | HeadBranch | Label | Language
| Milestone | Orgname | ProjectBoard | Repository | Teamname | Username.

(** [type Value = ValueType | Set<string>[]]; the literal sets of the
    schema are written in insertion order. *)
Inductive Value :=
| OfType (t : ValueType)
| OfSets (sets : list (list string)).

(** [const qualifiers = new Map<string, Value>([...])], in entry order
    (a [Map] iterates in insertion order; the keys are pairwise distinct,
    see [qualifiers_keys_NoDup]). *)
Definition qualifiers : list (string * Value) :=
  [ ("type", OfSets [["pr"; "issue"]]);
    ("updated", OfType Date);
    ("in", OfSets [["title"; "body"; "comments"]]);
    ("org", OfType Orgname);
    ("repo", OfType Repository);
    ("user", OfType Username);
    ("state", OfSets [["open"; "closed"]]);
    ("assignee", OfType Username);
    ("author", OfType Username);
    ("mentions", OfType Username);
    ("team", OfType Teamname);
    ("commenter", OfType Username);
    ("involves", OfType Username);
    ("label", OfType Label);
    ("linked", OfSets [["pr"; "issue"]]);
    ("milestone", OfType Milestone);
    ("project", OfType ProjectBoard);
    ("language", OfType Language);
    ("comments", OfType Number);
    ("interactions", OfType Number);
    ("reactions", OfType Number);
    ("created", OfType Date);
    ("closed", OfType Date);
    ("archived", OfSets [["true"; "false"]]);
    ("is", OfSets [["locked"; "unlocked"]; ["merged"; "unmerged"];
                   ["public"; "private"]; ["open"; "closed"];
                   ["pr"; "issue"]]);
    ("no", OfSets [["label"; "milestone"; "assignee"; "project"]]);
    ("status", OfSets [["pending"; "success"; "failure"]]);
    ("base", OfType BaseBranch);
    ("head", OfType HeadBranch);
    ("draft", OfSets [["true"; "false"]]);
    ("review-requested", OfType Username);
    ("review", OfSets [["none"; "required"; "approved"]]);
    ("reviewed-by", OfType Username);
    ("team-review-requested", OfType Teamname);
    ("merged", OfType Date) ].

(** [qualifiers.get(key)] *)
Fixpoint assoc (key : string) (l : list (string * Value)) : option Value :=
  match l with
  | [] => None
  | (k, v) :: l' => if String.eqb k key then Some v else assoc key l'
  end.

(** [export const requiresPrType = new Set<string>([...])] *)
Definition requiresPrType : list string :=
  [ "status"; "base"; "head"; "draft"; "review-requested"; "review";
    "reviewed-by"; "team-review-requested"; "merged" ].

Definition Uri := string.

(** [interface SymbolInfo].  A [SymbolInfo] is a heap object and the
    table is a [Set] of such objects, which compares its members by
    identity: [oid] is that identity (one per allocated object
    literal). *)
Record SymbolInfo := {
  oid : nat;
  name : string;
  uri : option Uri;
  def : option Node;
  value : option Value
}.

(** [class SymbolTable]: [_data] is the [Set<SymbolInfo>] in insertion
    order, which is the order in which a [Set] is iterated. *)
Record SymbolTable := { _data : list SymbolInfo }.

(** [Set.prototype.add]: an object that is already a member is not
    added again and keeps its position. *)
Definition set_add (info : SymbolInfo) (s : list SymbolInfo) : list SymbolInfo :=
  if existsb (fun i => Nat.eqb (oid i) (oid info)) s then s else s ++ [info].

(** [add(info) { this._data.add(info); }] *)
Definition add (info : SymbolInfo) (t : SymbolTable) : SymbolTable :=
  {| _data := set_add info (_data t) |}.

(** [constructor()]: one object literal [{ name: key, value }] per entry
    of [qualifiers]; [fresh] is the next unused object identity. *)
Fixpoint seed (entries : list (string * Value)) (t : SymbolTable) (fresh : nat)
  : SymbolTable * nat :=
  match entries with
  | [] => (t, fresh)
  | (key, v) :: rest =>
      seed rest
        (add {| oid := fresh; name := key; uri := None; def := None;
                value := Some v |} t)
        (S fresh)
  end.

Definition new_SymbolTable (fresh : nat) : SymbolTable * nat :=
  seed qualifiers {| _data := [] |} fresh.

(** [get(name)]: the first member, in iteration order, with that name. *)
Fixpoint find_name (n : string) (l : list SymbolInfo) : option SymbolInfo :=
  match l with
  | [] => None
  | info :: l' => if String.eqb (name info) n then Some info else find_name n l'
  end.

Definition get (n : string) (t : SymbolTable) : option SymbolInfo :=
  find_name n (_data t).

(** [*getAll(name)]: the sequence the generator yields. *)
Definition getAll (n : string) (t : SymbolTable) : list SymbolInfo :=
  List.filter (fun info => String.eqb (name info) n) (_data t).

(** [all()] *)
Definition all (t : SymbolTable) : list SymbolInfo := _data t.

(** Module state: the module-level [let symbols: SymbolTable] (unset
    until the first call of [fillSymbols]) and the allocator of object
    identities. *)
Record Module_ := { symbols : option SymbolTable; fresh : nat }.

Definition initial : Module_ := {| symbols := None; fresh := 0 |}.

(** The callback of [Utils.walk] in [fillSymbols], applied to one
    node. *)
Definition visit (u : Uri) (acc : SymbolTable * nat) (node : Node)
  : SymbolTable * nat :=
  match node with
  | VariableDefinition _ nm _ =>
      (add {| oid := snd acc; name := vn_value nm; uri := Some u;
              def := Some node; value := None |} (fst acc),
       S (snd acc))
  | _ => acc
  end.

(** [export function fillSymbols(query, uri): SymbolTable] *)
Definition fillSymbols (query : Node) (u : Uri) (m : Module_)
  : SymbolTable * Module_ :=
  let start :=
    match symbols m with
    | Some t => (t, fresh m)
    | None => new_SymbolTable (fresh m)
    end in
  let result := fold_left (visit u) (walk query) start in
  (fst result, {| symbols := Some (fst result); fresh := snd result |}).

(** The table a caller sees: the one [fillSymbols] would create on
    demand. *)
Definition table (m : Module_) : SymbolTable :=
  match symbols m with
  | Some t => t
  | None => fst (new_SymbolTable (fresh m))
  end.

(** Every object in the table was allocated before [fresh], each
    once. *)
Definition allocated (bound : nat) (l : list SymbolInfo) : Prop :=
  Forall (fun i => oid i < bound) l.

Definition wf (m : Module_) : Prop :=
  match symbols m with
  | Some t => allocated (fresh m) (_data t)
  | None => True
  end.

End Symbols.


(* ===================================================================== *)
(** * The notebook provider: pure parts *)
(* ===================================================================== *)

Module Provider.

(** ** [escapeHtml] *)

(** Strings are sequences of characters; the characters the function
    looks at are ASCII, and no unit of a longer character equals one of
    them. *)

(** The double quote, written by its code. *)
Definition dquote : ascii := "034"%char.

(** [const entityMap: Record<string, string>], keyed by one-character
    strings. *)
Definition entityMap : list (ascii * string) :=
  [ ("&"%char, "&amp;");
    ("<"%char, "&lt;");
    (">"%char, "&gt;");
    (dquote, "&quot;");
    ("'"%char, "&#39;");
    ("/"%char, "&#x2F;");
    ("`"%char, "&#x60;");
    ("="%char, "&#x3D;") ].

(** [entityMap[s]]; a missing key reads [undefined], which [replace]
    writes out as text. *)
Fixpoint entity (c : ascii) (m : list (ascii * string)) : string :=
  match m with
  | [] => "undefined"
  | (k, v) :: m' => if Ascii.eqb k c then v else entity c m'
  end.

(** The character class of the regular expression passed to [replace]:
    ampersand, less-than, greater-than, double quote, single quote,
    backtick, equals sign and slash. *)
Definition special (c : ascii) : bool :=
  existsb (Ascii.eqb c)
    [ "&"%char; "<"%char; ">"%char; dquote; "'"%char; "`"%char; "="%char;
      "/"%char ].

(** [string.replace(<class>/g, s => entityMap[s])]: every character of
    the class is replaced, from left to right. *)
Fixpoint escapeHtml (s : string) : string :=
  match s with
  | EmptyString => EmptyString
  | String c s' =>
      if special c then String.append (entity c entityMap) (escapeHtml s')
      else String c (escapeHtml s')
  end.

(** ** Numbers and items *)

(** A JavaScript number as the comparators produce it: an integer (counts
    and millisecond time stamps are exact in a double) or [NaN]. *)
Inductive jsnum := Num (z : Z) | NaN.

Definition jsub (a b : jsnum) : jsnum :=
  match a, b with
  | Num x, Num y => Num (x - y)
  | _, _ => NaN
  end.

Definition jmul (a b : jsnum) : jsnum :=
  match a, b with
  | Num x, Num y => Num (x * y)
  | _, _ => NaN
  end.

(** Unary minus, for the statements. *)
Definition jneg (a : jsnum) : jsnum :=
  match a with
  | Num x => Num (- x)
  | NaN => NaN
  end.

(** [SearchIssuesAndPullRequestsResponseItemsItem], the fields the kernel
    reads outside of the HTML and markdown text. *)
Record Item := {
  url : string;
  html_url : string;
  repository_url : string;
  number : Z;
  title : string;
  comments : Z;
  created_at : string;
  updated_at : string
}.

(** ** [Date.parse] *)

Definition digit (c : ascii) : option Z :=
  let n := nat_of_ascii c in
  if (48 <=? n)%nat && (n <=? 57)%nat then Some (Z.of_nat (n - 48)) else None.

(** Reads exactly [n] decimal digits. *)
Fixpoint digits (n : nat) (acc : Z) (s : string) : option (Z * string) :=
  match n with
  | O => Some (acc, s)
  | S n' =>
      match s with
      | String c s' =>
          match digit c with
          | Some d => digits n' (10 * acc + d)%Z s'
          | None => None
          end
      | EmptyString => None
      end
  end.

(** Expects the character [c]. *)
Definition expect (c : ascii) (s : string) : option string :=
  match s with
  | String c' s' => if Ascii.eqb c c' then Some s' else None
  | EmptyString => None
  end.

(** Days from 1970-01-01 to the given day of the proleptic Gregorian
    calendar. *)
Definition days_from_civil (y m d : Z) : Z :=
  let y' := if (m <=? 2)%Z then (y - 1)%Z else y in
  let era := (y' / 400)%Z in
  let yoe := (y' - era * 400)%Z in
  let mp := if (2 <? m)%Z then (m - 3)%Z else (m + 9)%Z in
  let doy := ((153 * mp + 2) / 5 + d - 1)%Z in
  let doe := (yoe * 365 + yoe / 4 - yoe / 100 + doy)%Z in
  (era * 146097 + doe - 719468)%Z.

Definition time_of_day (s : string) : option Z :=
  match s with
  | EmptyString => Some 0%Z
  | _ =>
      s1 ← expect "T"%char s;
      '(hh, s2) ← digits 2 0%Z s1;
      s3 ← expect ":"%char s2;
      '(mi, s4) ← digits 2 0%Z s3;
      s5 ← expect ":"%char s4;
      '(ss, s6) ← digits 2 0%Z s5;
      s7 ← expect "Z"%char s6;
      match s7 with
      | EmptyString =>
          if (hh <=? 23)%Z && (mi <=? 59)%Z && (ss <=? 59)%Z
          then Some ((hh * 3600 + mi * 60 + ss) * 1000)%Z
          else None
      | _ => None
      end
  end.

(** The host's [Date.parse] on the two shapes of time stamp that occur
    here, the date [YYYY-MM-DD] and the UTC date-time
    [YYYY-MM-DDTHH:MM:SSZ] of the search API: milliseconds since the
    epoch.  The host reads more strings than these two shapes (other
    forms of the ISO format, and formats of its own choosing); this
    model has [NaN] for every other string.  So the model is the host's
    function where it yields a number, and a statement that depends on
    the value of a date says in its hypotheses that the stamps are
    read. *)
Definition Date_parse (s : string) : jsnum :=
  let r :=
    '(y, s1) ← digits 4 0%Z s;
    s2 ← expect "-"%char s1;
    '(m, s3) ← digits 2 0%Z s2;
    s4 ← expect "-"%char s3;
    '(d, s5) ← digits 2 0%Z s4;
    t ← time_of_day s5;
    if (1 <=? m)%Z && (m <=? 12)%Z && (1 <=? d)%Z && (d <=? 31)%Z
    then Some (days_from_civil y m d * 86400000 + t)%Z
    else None in
  match r with
  | Some ms => Num ms
  | None => NaN
  end.

(** ** [namespace cmp] *)

Definition ItemComparator := Item -> Item -> jsnum.

(** [invert(compare) = (a, b) => compare(a, b) * -1] *)
Definition invert {T : Type} (compare : T -> T -> jsnum) : T -> T -> jsnum :=
  fun a b => jmul (compare a b) (Num (-1)).

Definition compareByComments (a b : Item) : jsnum :=
  jsub (Num (comments a)) (Num (comments b)).

Definition compareByCreated (a b : Item) : jsnum :=
  jsub (Date_parse (created_at a)) (Date_parse (created_at b)).

Definition compareByUpdated (a b : Item) : jsnum :=
  jsub (Date_parse (updated_at a)) (Date_parse (updated_at b)).

(** [export const byName = new Map([...])] *)
Definition byName : list (string * ItemComparator) :=
  [ ("comments", compareByComments);
    ("created", compareByCreated);
    ("updated", compareByUpdated) ].

(** [byName.get(key)], where the key may be [undefined]. *)
Definition byName_get (key : option string) : option ItemComparator :=
  match key with
  | Some k =>
      (fix lookup (l : list (string * ItemComparator)) :=
         match l with
         | [] => None
         | (k', c) :: l' => if String.eqb k' k then Some c else lookup l'
         end) byName
  | None => None
  end.

(** ** [Array.prototype.sort] *)

(** The comparison the sort makes of a comparator's result: [x] goes
    before [y] unless the result is positive; [NaN] counts as zero. *)
Definition before (c : ItemComparator) (x y : Item) : bool :=
  match c x y with
  | Num z => (z <=? 0)%Z
  | NaN => true
  end.

Fixpoint insert (c : ItemComparator) (x : Item) (l : list Item) : list Item :=
  match l with
  | [] => [x]
  | y :: l' => if before c x y then x :: l else y :: insert c x l'
  end.

(** The host's sort is stable, and a comparator that answers numbers in
    agreement with a total preorder of the items, as the three
    comparators of [byName] do on items whose stamps are read, allows one
    result only: the model is the stable insertion sort.  Where a
    comparator answers [NaN] for some pair the comparison function is
    not consistent, the order that the host produces depends on its
    sorting algorithm, and the list of the model is one of the possible
    results; statements about the order of the result assume that no
    answer is [NaN]. *)
Definition Array_sort (c : ItemComparator) (l : list Item) : list Item :=
  foldr (insert c) [] l.

(** ** Compiled queries *)

Inductive Order := asc | desc.

(** Modelled from the spec: the type of the entries of
    [project.queryData(doc)] is declared in a file that is not among the
    sources; the spec gives [CompiledQuery] as
    [{q: string, sort?: string, order?: asc|desc}]. *)
Record QueryData := {
  q : string;
  sort : option string;
  order : option Order
}.

(** ** Post-processing of the fetched items *)

(** The value of [comparator] in [_doExecuteCell]:
    [allQueryData.length >= 2 &&
     allQueryData.every(item => item.sort === first.sort) &&
     cmp.byName.get(first.sort!)], as [None] when it is falsy. *)
Definition comparator (allQueryData : list QueryData) : option ItemComparator :=
  match allQueryData with
  | [] => None
  | first :: _ =>
      if (2 <=? length allQueryData)%nat
         && forallb (fun item => bool_decide (sort item = sort first)) allQueryData
      then byName_get (sort first)
      else None
  end.

(** The [// sort] step: [allItems] after it. *)
Definition sorted (allQueryData : list QueryData) (allItems : list Item) : list Item :=
  match allQueryData, comparator allQueryData with
  | first :: _, Some c =>
      Array_sort (if bool_decide (sort first = Some "asc") then invert c else c)
        allItems
  | _, _ => allItems
  end.

(** The ["render"] loop: the items for which the loop body runs past the
    [seen] test, in order.  The markdown and HTML texts are built from
    exactly these items. *)
Fixpoint rendered (seen : gset string) (allItems : list Item) : list Item :=
  match allItems with
  | [] => []
  | item :: rest =>
      if bool_decide (url item ∈ seen) then rendered seen rest
      else item :: rendered ({[ url item ]} ∪ seen) rest
  end.

Definition maxCount : nat := 13.

(** [!lastRepo] for [lastRepo: string | undefined]: it is unset, or the
    empty string. *)
Definition unset (lastRepo : option string) : bool :=
  match lastRepo with
  | None => true
  | Some r => String.eqb r ""
  end.

(** The loop that computes [hasManyRepos], from the value of [lastRepo]
    on; [true] is the [break]. *)
Fixpoint hasManyRepos_from (lastRepo : option string) (allItems : list Item) : bool :=
  match allItems with
  | [] => false
  | item :: rest =>
      if unset lastRepo then hasManyRepos_from (Some (repository_url item)) rest
      else if bool_decide (lastRepo = Some (repository_url item))
           then hasManyRepos_from lastRepo rest
           else true
  end.

(** [hasManyRepos] after the loop; it is the [showRepo] argument of
    [renderItemAsHtml]. *)
Definition hasManyRepos (allItems : list Item) : bool :=
  hasManyRepos_from None allItems.

End Provider.


(* ===================================================================== *)
(** * The notebook provider: executions *)
(* ===================================================================== *)

Module Kernel.
Import Provider.

(** ** Cells *)

(** A [vscode.NotebookCell] is an object of the host, used as the key of
    two [WeakMap]s: [CellId] is its identity. *)
Definition CellId := nat.

Inductive NotebookCellRunState := Running | Idle | Success | Error.

(** [cell.metadata], the fields the provider writes; [None] is
    [undefined]. *)
Record CellMetadata := {
  runState : option NotebookCellRunState;
  runStartTime : option Z;
  lastRunDuration : option Z;
  statusMessage : option string
}.

(** What a [catch] clause receives, by what [reject] reads of it: for an
    [Error] object its [name] and [message], and for every value the
    result of [JSON.stringify(err, undefined, 4)], which is a text (for
    an [Error] it lists the own enumerable properties of the object, so
    it is [{}] only when there are none) or [undefined], here [None].
    A value on which [JSON.stringify] itself throws, such as a cyclic
    object, is not among the values thrown here. *)
Inductive Thrown :=
| ThrownError (name message : string) (json : option string)
| ThrownValue (json : option string).

(** [vscode.CellOutput].  A rich output is built from the rows of the
    render loop ([text/html] and [text/markdown], whose text is not
    modelled), says whether the list is shown collapsed, and carries
    [allItems] under [x-application/github-issues]. *)
Inductive CellOutput :=
| Rich (rows : list Item) (collapsed : bool) (data : list Item)
| ErrorOutput (ename : string) (evalue : option string).

Record NotebookCell := {
  metadata : CellMetadata;
  outputs : list CellOutput
}.

Definition blank : NotebookCell :=
  {| metadata := {| runState := None; runStartTime := None;
                    lastRunDuration := None; statusMessage := None |};
     outputs := [] |}.

(** ** The state *)

(** The [readonly] fields of a [NotebookCellExecution].  Its
    [CancellationTokenSource] is mutable and lives in the world, under
    the execution's token (every execution draws a token of its own). *)
Record NotebookCellExecution := {
  _token : nat;
  cell : CellId;
  _originalRunState : option NotebookCellRunState;
  _startTime : Z
}.

(** One call of [octokit.search.issuesAndPullRequests]. *)
Record Request := {
  req_q : string;
  req_sort : option string;
  req_order : option Order;
  per_page : nat;
  page : nat
}.

Record World := {
  (** [NotebookCellExecution._tokenPool] *)
  _tokenPool : nat;
  (** [NotebookCellExecution._tokens] *)
  _tokens : gmap CellId nat;
  (** the cells of the host *)
  cells : gmap CellId NotebookCell;
  (** tokens of the executions whose [cts] has been cancelled *)
  cancelled : gset nat;
  (** [IssuesNotebookProvider._cellExecutions] *)
  _cellExecutions : gmap CellId NotebookCellExecution;
  (** the search requests issued so far, oldest first *)
  requests : list Request;
  (** [Date.now()] *)
  now : Z
}.

Definition cellOf (w : World) (c : CellId) : NotebookCell :=
  default blank (cells w !! c).

Definition with_cell (c : CellId) (f : NotebookCell -> NotebookCell) (w : World) : World :=
  {| _tokenPool := _tokenPool w; _tokens := _tokens w;
     cells := <[ c := f (cellOf w c) ]> (cells w);
     cancelled := cancelled w; _cellExecutions := _cellExecutions w;
     requests := requests w; now := now w |}.

Definition with_tokens (pool : nat) (t : gmap CellId nat) (w : World) : World :=
  {| _tokenPool := pool; _tokens := t; cells := cells w;
     cancelled := cancelled w; _cellExecutions := _cellExecutions w;
     requests := requests w; now := now w |}.

Definition with_cancelled (s : gset nat) (w : World) : World :=
  {| _tokenPool := _tokenPool w; _tokens := _tokens w; cells := cells w;
     cancelled := s; _cellExecutions := _cellExecutions w;
     requests := requests w; now := now w |}.

Definition with_cellExecutions (m : gmap CellId NotebookCellExecution) (w : World) : World :=
  {| _tokenPool := _tokenPool w; _tokens := _tokens w; cells := cells w;
     cancelled := cancelled w; _cellExecutions := m;
     requests := requests w; now := now w |}.

Definition with_requests (l : list Request) (w : World) : World :=
  {| _tokenPool := _tokenPool w; _tokens := _tokens w; cells := cells w;
     cancelled := cancelled w; _cellExecutions := _cellExecutions w;
     requests := l; now := now w |}.

Definition with_now (t : Z) (w : World) : World :=
  {| _tokenPool := _tokenPool w; _tokens := _tokens w; cells := cells w;
     cancelled := cancelled w; _cellExecutions := _cellExecutions w;
     requests := requests w; now := t |}.

(** ** [class NotebookCellExecution] *)

(** The field initialisers and the constructor. *)
Definition new_NotebookCellExecution (c : CellId) (w : World)
  : NotebookCellExecution * World :=
  let e := {| _token := _tokenPool w;
              cell := c;
              _originalRunState := runState (metadata (cellOf w c));
              _startTime := now w |} in
  let w1 := with_tokens (S (_tokenPool w)) (<[ c := _token e ]> (_tokens w)) w in
  let w2 :=
    with_cell c
      (fun x =>
         {| metadata :=
              {| runState := Some Running;
                 runStartTime := Some (_startTime e);
                 lastRunDuration := lastRunDuration (metadata x);
                 statusMessage := statusMessage (metadata x) |};
            outputs := outputs x |}) w1 in
  (e, w2).

(** [_isLatest()] *)
Definition _isLatest (e : NotebookCellExecution) (w : World) : bool :=
  bool_decide (_tokens w !! cell e = Some (_token e)).

(** [cancel()] *)
Definition cancel (e : NotebookCellExecution) (w : World) : World :=
  if _isLatest e w then
    let w1 := with_cancelled ({[ _token e ]} ∪ cancelled w) w in
    let w2 :=
      with_cell (cell e)
        (fun x =>
           {| metadata :=
                {| runState := _originalRunState e;
                   runStartTime := runStartTime (metadata x);
                   lastRunDuration := lastRunDuration (metadata x);
                   statusMessage := statusMessage (metadata x) |};
              outputs := outputs x |}) w1 in
    with_tokens (_tokenPool w2) (delete (cell e) (_tokens w2)) w2
  else w.

(** [resolve(outputs, message?)] *)
Definition resolve (e : NotebookCellExecution) (outs : list CellOutput)
    (message : option string) (w : World) : World :=
  if _isLatest e w then
    with_cell (cell e)
      (fun x =>
         {| metadata :=
              {| runState := Some Success;
                 runStartTime := runStartTime (metadata x);
                 lastRunDuration := Some (now w - _startTime e)%Z;
                 statusMessage := message |};
            outputs := outs |}) w
  else w.

(** [err instanceof Error && err.name || 'error'] and the like. *)
Definition ename_of (err : Thrown) : string :=
  match err with
  | ThrownError name _ _ => if String.eqb name "" then "error" else name
  | ThrownValue _ => "error"
  end.

(** [err instanceof Error && err.message || JSON.stringify(err, undefined, 4)] *)
Definition evalue_of (err : Thrown) : option string :=
  match err with
  | ThrownError _ message json =>
      if String.eqb message "" then json else Some message
  | ThrownValue json => json
  end.

(** [reject(err)] *)
Definition reject (e : NotebookCellExecution) (err : Thrown) (w : World) : World :=
  if _isLatest e w then
    with_cell (cell e)
      (fun x =>
         {| metadata :=
              {| runState := Some Error;
                 runStartTime := runStartTime (metadata x);
                 lastRunDuration := None;
                 statusMessage := Some "Error" |};
            outputs := [ErrorOutput (ename_of err) (evalue_of err)] |}) w
  else w.

(** [execution.cts.token.isCancellationRequested] *)
Definition isCancellationRequested (e : NotebookCellExecution) (w : World) : bool :=
  bool_decide (_token e ∈ cancelled w).

(** ** [class IssuesNotebookProvider]: starting and cancelling *)

(** [cancelCellExecution(_document, cell)] *)
Definition cancelCellExecution (c : CellId) (w : World) : World :=
  match _cellExecutions w !! c with
  | Some execution => cancel execution w
  | None => w
  end.

(** [executeCell] up to its [try]: the prior execution of the cell is
    cancelled, a new one is created and registered. *)
Definition startCell (c : CellId) (w : World) : NotebookCellExecution * World :=
  let w1 := cancelCellExecution c w in
  let '(execution, w2) := new_NotebookCellExecution c w1 in
  (execution, with_cellExecutions (<[ c := execution ]> (_cellExecutions w2)) w2).

(** The listener of [onDidChangeCellOutputs], for one cell of the
    event. *)
Definition onDidChangeCellOutputs (c : CellId) (w : World) : World :=
  if (length (outputs (cellOf w c)) =? 0)%nat then
    with_cell c
      (fun x =>
         {| metadata :=
              {| runState := Some Idle;
                 runStartTime := runStartTime (metadata x);
                 lastRunDuration := None;
                 statusMessage := None |};
            outputs := outputs x |}) w
  else w.

(** ** The environment *)

(** What may happen while a run is suspended at an [await]: the event
    loop runs other callbacks of the provider.  The listeners that
    [executeCell] installs and the cancel command call [cancel]; another
    [executeCell] runs its synchronous prefix; a concurrent run settles by
    [resolve] or [reject]; the host replaces the outputs of a cell and
    fires [onDidChangeCellOutputs]; time passes. *)
Inductive ExtOp :=
| CallCancel (e : NotebookCellExecution)
| CallResolve (e : NotebookCellExecution) (outs : list CellOutput) (message : option string)
| CallReject (e : NotebookCellExecution) (err : Thrown)
| CallExecuteCell (c : CellId)
| HostSetsOutputs (c : CellId) (outs : list CellOutput)
| ClockAdvances (d : Z).

Definition applyOp (w : World) (op : ExtOp) : World :=
  match op with
  | CallCancel e => cancel e w
  | CallResolve e outs message => resolve e outs message w
  | CallReject e err => reject e err w
  | CallExecuteCell c => snd (startCell c w)
  | HostSetsOutputs c outs =>
      onDidChangeCellOutputs c
        (with_cell c (fun x => {| metadata := metadata x; outputs := outs |}) w)
  | ClockAdvances d => with_now (now w + d)%Z w
  end.

Definition applyOps (ops : list ExtOp) (w : World) : World :=
  fold_left applyOp ops w.

(** What an awaited promise settles to. *)
Inductive Reply :=
| Response (items : list Item) (total_count : Z)
| Failure (err : Thrown).

(** One [await] of the run: the callbacks that ran meanwhile, and the
    outcome.  [LibTurn] is [await this.octokit.lib()]; [SearchTurn] is
    [await octokit.search.issuesAndPullRequests(...)]. *)
Inductive Turn :=
| LibTurn (during : list ExtOp) (failure : option Thrown)
| SearchTurn (during : list ExtOp) (reply : Reply).

(** ** [_doExecuteCell] *)

(** How the [try] block ends. *)
Inductive Fetched :=
| Completed (allItems : list Item) (tooLarge : bool)
| Caught (err : Thrown).

Definition issue (qd : QueryData) (p : nat) (w : World) : World :=
  with_requests
    (requests w ++
     [ {| req_q := q qd; req_sort := sort qd; req_order := order qd;
          per_page := 100; page := p |} ]) w.

(** The [while] loop of one sub-query.  The script is the sequence of
    turns the environment takes; a script that ends early, or whose next
    turn is of the wrong kind, describes no run ([None]). *)
Fixpoint fetchPages (e : NotebookCellExecution) (qd : QueryData)
    (script : list Turn) (p : nat) (count : Z)
    (allItems : list Item) (tooLarge : bool) (w : World)
  : option (Fetched * list Turn * World) :=
  if isCancellationRequested e w then Some (Completed allItems tooLarge, script, w)
  else
    match script with
    | SearchTurn during reply :: script' =>
        let w' := applyOps during (issue qd p w) in
        match reply with
        | Failure err => Some (Caught err, script', w')
        | Response items total_count =>
            let count' := (count + Z.of_nat (length items))%Z in
            let allItems' := allItems ++ items in
            let tooLarge' := tooLarge || (1000 <? total_count)%Z in
            if (Z.min 1000 total_count <=? count')%Z
            then Some (Completed allItems' tooLarge', script', w')
            else fetchPages e qd script' (p + 1) count' allItems' tooLarge' w'
        end
    | _ => None
    end.

(** The [for] loop over [allQueryData] inside the [try]. *)
Fixpoint fetchAll (e : NotebookCellExecution) (allQueryData : list QueryData)
    (script : list Turn) (allItems : list Item) (tooLarge : bool) (w : World)
  : option (Fetched * list Turn * World) :=
  match allQueryData with
  | [] => Some (Completed allItems tooLarge, script, w)
  | queryData :: rest =>
      match script with
      | LibTurn during failure :: script' =>
          let w' := applyOps during w in
          match failure with
          | Some err => Some (Caught err, script', w')
          | None =>
              match fetchPages e queryData script' 1 0 allItems tooLarge w' with
              | Some (Completed allItems' tooLarge', script'', w'') =>
                  fetchAll e rest script'' allItems' tooLarge' w''
              | other => other
              end
          end
      | _ => None
      end
  end.

(** [`${count}${tooLarge ? '+' : ''} results`] *)
Definition statusLine (count : nat) (tooLarge : bool) : string :=
  String.append (NilEmpty.string_of_uint (Nat.to_uint count))
    (String.append (if tooLarge then "+" else "") " results").

(** [_doExecuteCell(execution)], from the [try] on.  The statements
    before it read the project of the document, which is not among the
    sources; their result [allQueryData] is an argument. *)
Definition _doExecuteCell (execution : NotebookCellExecution)
    (allQueryData : list QueryData) (script : list Turn) (w : World)
  : option (list Turn * World) :=
  match fetchAll execution allQueryData script [] false w with
  | None => None
  | Some (Caught err, script', w') => Some (script', reject execution err w')
  | Some (Completed allItems tooLarge, script', w') =>
      let allItems' := sorted allQueryData allItems in
      let rows := rendered ∅ allItems' in
      let count := length rows in
      Some (script',
            resolve execution
              [Rich rows (maxCount <? count)%nat allItems']
              (Some (statusLine count tooLarge)) w')
  end.

(** [executeCell(document, cell)] *)
Definition executeCell (c : CellId) (allQueryData : list QueryData)
    (script : list Turn) (w : World) : option (list Turn * World) :=
  let '(execution, w') := startCell c w in
  _doExecuteCell execution allQueryData script w'.

(** The state before any cell has run. *)
Definition initial : World :=
  {| _tokenPool := 0; _tokens := ∅; cells := ∅; cancelled := ∅;
     _cellExecutions := ∅; requests := []; now := 0 |}.

(** The invariant of the two statics and the token sources: every token
    in [_tokens] was drawn from the pool, no token is the current one of
    two cells, and a cancelled token is the current one of no cell. *)
Record wf (w : World) : Prop := {
  wf_drawn : forall c tok, _tokens w !! c = Some tok -> tok < _tokenPool w;
  wf_inj : forall c c' tok,
    _tokens w !! c = Some tok -> _tokens w !! c' = Some tok -> c = c';
  wf_cancelled : forall tok,
    tok ∈ cancelled w ->
    tok < _tokenPool w /\ forall c, _tokens w !! c <> Some tok
}.

End Kernel.


(* ===================================================================== *)
(** * The notebook provider: lock state and storage *)
(* ===================================================================== *)

Module Notebook.
Import Kernel.

(** ** Metadata objects *)

(** The values of the properties that the provider writes. *)
Inductive JsValue :=
| JBool (b : bool)
| JNumber (z : Z)
| JString (s : string).

(** A metadata object is the map from its property names to their
    values, [gmap string JsValue]; an absent property reads [undefined].
    The spread [{ ...metadata, p: v }] copies every property and sets
    [p]. *)

(** What [_onDidChangeNotebook.fire] is given: the two closures, as
    functions of the metadata object they read and replace. *)
Record NotebookDocumentEditEvent := {
  undo : gmap string JsValue -> gmap string JsValue;
  redo : gmap string JsValue -> gmap string JsValue
}.

(** [setCellLockState(cell, locked)]: the metadata of the cell after the
    call and the event fired. *)
Definition setCellLockState (locked : bool) (metadata : gmap string JsValue)
  : gmap string JsValue * NotebookDocumentEditEvent :=
  let redo := fun m : gmap string JsValue => <[ "editable" := JBool (negb locked) ]> m in
  let undo := fun m : gmap string JsValue => <[ "editable" := JBool locked ]> m in
  (redo metadata, {| undo := undo; redo := redo |}).

(** [setDocumentLockState(notebook, locked)] *)
Definition setDocumentLockState (locked : bool) (metadata : gmap string JsValue)
  : gmap string JsValue * NotebookDocumentEditEvent :=
  let redo := fun m : gmap string JsValue =>
    <[ "cellEditable" := JBool (negb locked) ]>
      (<[ "editable" := JBool (negb locked) ]> m) in
  let undo := fun m : gmap string JsValue =>
    <[ "cellEditable" := JBool (negb locked) ]>
      (<[ "editable" := JBool (negb locked) ]> m) in
  (redo metadata, {| undo := undo; redo := redo |}).

(** ** Storage *)

(** [vscode.CellKind] *)
Inductive CellKind := Markdown | Code.

(** [interface RawNotebookCell]; [editable] is optional. *)
Record RawNotebookCell := {
  raw_language : string;
  raw_value : string;
  raw_kind : CellKind;
  raw_editable : option bool
}.

(** A cell of [vscode.NotebookData], as [openNotebook] builds it. *)
Record NotebookCellData := {
  source : string;
  language : string;
  cellKind : CellKind;
  data_outputs : list CellOutput;
  data_editable : bool;
  data_runnable : bool
}.

Record NotebookData := {
  languages : list string;
  cellRunnable : bool;
  cellHasExecutionOrder : bool;
  data_cells : list NotebookCellData
}.

(** A cell of an open [vscode.NotebookDocument], the parts [_save]
    reads and the outputs it does not read. *)
Record OpenCell := {
  open_kind : CellKind;
  open_language : string;
  open_text : string;
  open_editable : option bool;
  open_outputs : list CellOutput
}.

(** [openNotebook], from the value of [JSON.parse(contents)] on: [None]
    when the file cannot be read or its text is not JSON ([raw = []]),
    otherwise the array of raw cells. *)
Definition openNotebook (parsed : option (list RawNotebookCell)) : NotebookData :=
  let raw := default [] parsed in
  {| languages := ["github-issues"];
     cellRunnable := false;
     cellHasExecutionOrder := false;
     data_cells :=
       map (fun item =>
              {| source := raw_value item;
                 language := raw_language item;
                 cellKind := raw_kind item;
                 data_outputs := [];
                 data_editable := default true (raw_editable item);
                 data_runnable := true |}) raw |}.

(** [_save(document, targetResource)]: the array that is written, as
    JSON, to the target. *)
Definition _save (cells : list OpenCell) : list RawNotebookCell :=
  map (fun cell =>
         {| raw_kind := open_kind cell;
            raw_language := open_language cell;
            raw_value := open_text cell;
            raw_editable := open_editable cell |}) cells.

(** The document the host shows for the data of [openNotebook]. *)
Definition shown (data : NotebookData) : list OpenCell :=
  map (fun c =>
         {| open_kind := cellKind c;
            open_language := language c;
            open_text := source c;
            open_editable := Some (data_editable c);
            open_outputs := data_outputs c |}) (data_cells data).

End Notebook.


(* ===================================================================== *)
(** * The notebook provider: running a whole document *)
(* ===================================================================== *)

Module Documents.
Import Provider Kernel Notebook.

(** A [vscode.NotebookDocument] is a key of two [WeakMap]s: [DocId] is
    its identity. *)
Definition DocId := nat.

(** [vscode.NotebookRunState] *)
Inductive NotebookRunState := DocRunning | DocIdle.

(** The [readonly] fields of a [NotebookDocumentExecution]; its token
    source lives in the state, under the token. *)
Record NotebookDocumentExecution := {
  d_token : nat;
  document : DocId;
  d_originalRunState : option NotebookRunState
}.

Record DocWorld := {
  (** [NotebookDocumentExecution._tokenPool] *)
  d_tokenPool : nat;
  (** [NotebookDocumentExecution._tokens] *)
  d_tokens : gmap DocId nat;
  (** [document.metadata.runState]; absent is [undefined] *)
  docRunState : gmap DocId NotebookRunState;
  (** tokens of the executions whose [cts] has been cancelled *)
  d_cancelled : gset nat;
  (** tokens of the executions whose [cts] has been disposed *)
  d_disposed : gset nat;
  (** [IssuesNotebookProvider._documentExecutions] *)
  _documentExecutions : gmap DocId NotebookDocumentExecution;
  (** the variable [currentCell] of the call of [executeAllCells] that
      created the execution with the token; absent while it is unset *)
  currentCell : gmap nat CellId;
  (** the state of the cells and their executions *)
  kernel : World
}.

Definition with_docTokens (pool : nat) (t : gmap DocId nat) (dw : DocWorld) : DocWorld :=
  {| d_tokenPool := pool; d_tokens := t; docRunState := docRunState dw;
     d_cancelled := d_cancelled dw; d_disposed := d_disposed dw;
     _documentExecutions := _documentExecutions dw;
     currentCell := currentCell dw; kernel := kernel dw |}.

(** [document.metadata.runState = s] *)
Definition with_docRunState (d : DocId) (s : option NotebookRunState) (dw : DocWorld) : DocWorld :=
  {| d_tokenPool := d_tokenPool dw; d_tokens := d_tokens dw;
     docRunState :=
       match s with
       | Some x => <[ d := x ]> (docRunState dw)
       | None => delete d (docRunState dw)
       end;
     d_cancelled := d_cancelled dw; d_disposed := d_disposed dw;
     _documentExecutions := _documentExecutions dw;
     currentCell := currentCell dw; kernel := kernel dw |}.

Definition with_docCancelled (s : gset nat) (dw : DocWorld) : DocWorld :=
  {| d_tokenPool := d_tokenPool dw; d_tokens := d_tokens dw;
     docRunState := docRunState dw;
     d_cancelled := s; d_disposed := d_disposed dw;
     _documentExecutions := _documentExecutions dw;
     currentCell := currentCell dw; kernel := kernel dw |}.

Definition with_docDisposed (s : gset nat) (dw : DocWorld) : DocWorld :=
  {| d_tokenPool := d_tokenPool dw; d_tokens := d_tokens dw;
     docRunState := docRunState dw;
     d_cancelled := d_cancelled dw; d_disposed := s;
     _documentExecutions := _documentExecutions dw;
     currentCell := currentCell dw; kernel := kernel dw |}.

Definition with_documentExecutions (m : gmap DocId NotebookDocumentExecution)
    (dw : DocWorld) : DocWorld :=
  {| d_tokenPool := d_tokenPool dw; d_tokens := d_tokens dw;
     docRunState := docRunState dw;
     d_cancelled := d_cancelled dw; d_disposed := d_disposed dw;
     _documentExecutions := m;
     currentCell := currentCell dw; kernel := kernel dw |}.

Definition with_currentCell (m : gmap nat CellId) (dw : DocWorld) : DocWorld :=
  {| d_tokenPool := d_tokenPool dw; d_tokens := d_tokens dw;
     docRunState := docRunState dw;
     d_cancelled := d_cancelled dw; d_disposed := d_disposed dw;
     _documentExecutions := _documentExecutions dw;
     currentCell := m; kernel := kernel dw |}.

Definition with_kernel (k : World) (dw : DocWorld) : DocWorld :=
  {| d_tokenPool := d_tokenPool dw; d_tokens := d_tokens dw;
     docRunState := docRunState dw;
     d_cancelled := d_cancelled dw; d_disposed := d_disposed dw;
     _documentExecutions := _documentExecutions dw;
     currentCell := currentCell dw; kernel := k |}.

(** ** [class NotebookDocumentExecution] *)

(** The field initialisers and the constructor. *)
Definition new_NotebookDocumentExecution (d : DocId) (dw : DocWorld)
  : NotebookDocumentExecution * DocWorld :=
  let e := {| d_token := d_tokenPool dw;
              document := d;
              d_originalRunState := docRunState dw !! d |} in
  let dw1 := with_docTokens (S (d_tokenPool dw)) (<[ d := d_token e ]> (d_tokens dw)) dw in
  (e, with_docRunState d (Some DocRunning) dw1).

(** [_isLatest()] *)
Definition d_isLatest (e : NotebookDocumentExecution) (dw : DocWorld) : bool :=
  bool_decide (d_tokens dw !! document e = Some (d_token e)).

(** The listener that [executeAllCells] adds to the token of its
    execution: [() => this.cancelCellExecution(document, currentCell)].
    With [currentCell] unset the lookup of the cell execution finds
    nothing. *)
Definition onCancellationRequested (e : NotebookDocumentExecution) (dw : DocWorld) : DocWorld :=
  match currentCell dw !! d_token e with
  | Some c => with_kernel (cancelCellExecution c (kernel dw)) dw
  | None => dw
  end.

(** [cts.cancel()]: the first cancellation of a source that has not
    been disposed calls the listener; a source that is disposed, or
    cancelled already, calls nothing. *)
Definition cts_cancel (e : NotebookDocumentExecution) (dw : DocWorld) : DocWorld :=
  if bool_decide (d_token e ∈ d_cancelled dw) then dw
  else
    let dw1 := with_docCancelled ({[ d_token e ]} ∪ d_cancelled dw) dw in
    if bool_decide (d_token e ∈ d_disposed dw) then dw1
    else onCancellationRequested e dw1.

(** [cancel()] *)
Definition doc_cancel (e : NotebookDocumentExecution) (dw : DocWorld) : DocWorld :=
  if d_isLatest e dw then
    let dw1 := cts_cancel e dw in
    let dw2 := with_docRunState (document e) (d_originalRunState e) dw1 in
    with_docTokens (d_tokenPool dw2) (delete (document e) (d_tokens dw2)) dw2
  else dw.

(** [resolve()] *)
Definition doc_resolve (e : NotebookDocumentExecution) (dw : DocWorld) : DocWorld :=
  if d_isLatest e dw then with_docRunState (document e) (Some DocIdle) dw else dw.

(** [dispose()] *)
Definition doc_dispose (e : NotebookDocumentExecution) (dw : DocWorld) : DocWorld :=
  with_docDisposed ({[ d_token e ]} ∪ d_disposed dw) dw.

(** [execution.cts.token.isCancellationRequested] *)
Definition d_isCancellationRequested (e : NotebookDocumentExecution) (dw : DocWorld) : bool :=
  bool_decide (d_token e ∈ d_cancelled dw).

(** ** [class IssuesNotebookProvider]: the document *)

(** [cancelAllCellsExecution(document)] *)
Definition cancelAllCellsExecution (d : DocId) (dw : DocWorld) : DocWorld :=
  match _documentExecutions dw !! d with
  | Some execution => doc_cancel execution dw
  | None => dw
  end.

(** [executeAllCells] up to its [try]. *)
Definition startAll (d : DocId) (dw : DocWorld) : NotebookDocumentExecution * DocWorld :=
  let dw1 := cancelAllCellsExecution d dw in
  let '(execution, dw2) := new_NotebookDocumentExecution d dw1 in
  (execution, with_documentExecutions (<[ d := execution ]> (_documentExecutions dw2)) dw2).

(** A cell of [document.cells]: its identity, kind and
    [metadata.runnable], and the queries its text compiles to (the
    compiler is not among the sources). *)
Record DocCell := {
  cell_id : CellId;
  cell_kind : CellKind;
  cell_runnable : bool;
  cell_queries : list QueryData
}.

(** [cell.cellKind === vscode.CellKind.Code && cell.metadata.runnable] *)
Definition isRunnableCode (c : DocCell) : bool :=
  match cell_kind c with
  | Code => cell_runnable c
  | Markdown => false
  end.

(** What the provider is asked for the document while a run of a cell is
    suspended: the command that cancels the run of the document, and
    another call of [executeAllCells], for a document with the given
    cells.  Of that other call the part up to its first [await] is
    followed. *)
Inductive DocOp :=
| CallCancelAll (d : DocId)
| CallExecuteAll (d : DocId) (cells : list DocCell).

(** A call of [executeAllCells] runs without interruption up to its
    first [await].  That is the first [await] of [_doExecuteCell] for
    the first cell that is runnable code: by then the run of the
    document is registered, the cell is the [currentCell], and
    [executeCell] has cancelled the prior execution of the cell and
    registered a new one.  With no such cell there is no [await], and
    the call runs to its end, through the [finally]. *)
Definition applyDocOp (dw : DocWorld) (op : DocOp) : DocWorld :=
  match op with
  | CallCancelAll d => cancelAllCellsExecution d dw
  | CallExecuteAll d cells =>
      let '(execution, dw1) := startAll d dw in
      match List.filter isRunnableCode cells with
      | [] => doc_dispose execution (doc_resolve execution dw1)
      | c :: _ =>
          let dw2 :=
            with_currentCell
              (<[ d_token execution := cell_id c ]> (currentCell dw1)) dw1 in
          with_kernel (snd (startCell (cell_id c) (kernel dw2))) dw2
      end
  end.

Definition applyDocOps (ops : list DocOp) (dw : DocWorld) : DocWorld :=
  fold_left applyDocOp ops dw.

(** The environment of the run of one cell: the requests for the
    document, which this model takes at the first [await] of the run
    (the opening of the text document, right after the execution of the
    cell is created), and then the turns of [_doExecuteCell]. *)
Definition CellSchedule : Type := list DocOp * list Turn.

(** [await this.executeCell(document, cell)] for the cell that has just
    been made the [currentCell]. *)
Definition runCell (c : DocCell) (s : CellSchedule) (dw : DocWorld) : option DocWorld :=
  let '(execution, k1) := startCell (cell_id c) (kernel dw) in
  let dw1 := applyDocOps (fst s) (with_kernel k1 dw) in
  match _doExecuteCell execution (cell_queries c) (snd s) (kernel dw1) with
  | Some (_, k2) => Some (with_kernel k2 dw1)
  | None => None
  end.

(** The [for] loop of [executeAllCells]; a schedule is taken for every
    cell that is run. *)
Fixpoint runCells (execution : NotebookDocumentExecution) (cells : list DocCell)
    (schedule : list CellSchedule) (dw : DocWorld) : option DocWorld :=
  match cells with
  | [] => Some dw
  | c :: cells' =>
      if isRunnableCode c then
        match schedule with
        | s :: schedule' =>
            let dw1 :=
              with_currentCell
                (<[ d_token execution := cell_id c ]> (currentCell dw)) dw in
            match runCell c s dw1 with
            | Some dw2 =>
                if d_isCancellationRequested execution dw2 then Some dw2
                else runCells execution cells' schedule' dw2
            | None => None
            end
        | [] => None
        end
      else runCells execution cells' schedule dw
  end.

(** [executeAllCells(document)] *)
Definition executeAllCells (d : DocId) (cells : list DocCell)
    (schedule : list CellSchedule) (dw : DocWorld) : option DocWorld :=
  let '(execution, dw1) := startAll d dw in
  match runCells execution cells schedule dw1 with
  | Some dw2 => Some (doc_dispose execution (doc_resolve execution dw2))
  | None => None
  end.

(** The state before any document has run, over a state of the cells. *)
Definition initial_over (k : World) : DocWorld :=
  {| d_tokenPool := 0; d_tokens := ∅; docRunState := ∅; d_cancelled := ∅;
     d_disposed := ∅; _documentExecutions := ∅; currentCell := ∅; kernel := k |}.

End Documents.

(* ===================================================================== *)
(** * Properties of the symbol table *)
(* ===================================================================== *)

Module SymbolsFacts.
Import Nodes Symbols.

(** The name a [VariableDefinition] node defines: [node.name.value]. *)
Definition definedName (node : Node) : string :=
  match node with
  | VariableDefinition _ nm _ => vn_value nm
  | _ => ""
  end.

(** The object literal [fillSymbols] builds for a definition node. *)
Definition entry (u : Uri) (first : nat) (k : nat) (node : Node) : SymbolInfo :=
  {| oid := first + k; name := definedName node; uri := Some u;
     def := Some node; value := None |}.

(** The object literal the constructor builds for a schema entry. *)
Definition builtin (first : nat) (k : nat) (kv : string * Value) : SymbolInfo :=
  {| oid := first + k; name := fst kv; uri := None; def := None;
     value := Some (snd kv) |}.

(** The identity allocator once the table exists. *)
Definition freshAfterTable (m : Module_) : nat :=
  match symbols m with
  | Some _ => fresh m
  | None => snd (new_SymbolTable (fresh m))
  end.

Lemma qualifiers_keys_NoDup : NoDup (map fst qualifiers).
Proof. apply (bool_decide_unpack _). vm_compute. reflexivity. Qed.

Lemma requiresPrType_NoDup : NoDup requiresPrType.
Proof. apply (bool_decide_unpack _). vm_compute. reflexivity. Qed.

Lemma set_add_fresh info l :
  allocated (oid info) l -> set_add info l = l ++ [info].
Proof.
  intros H. unfold set_add.
  assert (existsb (fun i => Nat.eqb (oid i) (oid info)) l = false) as ->; [|done].
  induction H as [|x l Hx _ IH]; simpl; [done|].
  rewrite IH. destruct (Nat.eqb_spec (oid x) (oid info)); [lia|done].
Qed.

Lemma set_add_extends info l : exists l', set_add info l = l ++ l'.
Proof.
  unfold set_add. destruct (existsb _ l).
  - exists []. by rewrite app_nil_r.
  - by exists [info].
Qed.

Lemma allocated_mono b b' l : b <= b' -> allocated b l -> allocated b' l.
Proof.
  intros Hb H. eapply Forall_impl; [exact H|]. simpl; intros; lia.
Qed.

Lemma allocated_snoc b info l :
  allocated b l -> oid info = b -> allocated (S b) (l ++ [info]).
Proof.
  intros H Ho. apply Forall_app. split.
  - eapply allocated_mono; [|done]. lia.
  - constructor; [lia|constructor].
Qed.

(** The constructor appends one object per schema entry. *)
Lemma seed_spec entries : forall t first,
  allocated first (_data t) ->
  _data (fst (seed entries t first)) = _data t ++ imap (builtin first) entries
  /\ snd (seed entries t first) = first + length entries
  /\ allocated (first + length entries) (_data (fst (seed entries t first))).
Proof.
  induction entries as [|[key v] rest IH]; intros t first Hal; simpl.
  - rewrite app_nil_r, Nat.add_0_r. done.
  - set (info := {| oid := first; name := key; uri := None; def := None;
                    value := Some v |}).
    assert (Hadd : _data (add info t) = _data t ++ [info])
      by (apply set_add_fresh; done).
    destruct (IH (add info t) (S first)) as (Hd & Hf & Ha).
    { rewrite Hadd. by apply allocated_snoc. }
    split; [|split].
    + rewrite Hd, Hadd, <- app_assoc. simpl. f_equal.
      unfold builtin at 2. simpl. rewrite Nat.add_0_r. f_equal.
      apply imap_ext. intros k x _. unfold builtin. simpl. f_equal. lia.
    + rewrite Hf. lia.
    + replace (first + S (length rest)) with (S first + length rest) by lia.
      exact Ha.
Qed.

Lemma new_SymbolTable_spec first :
  _data (fst (new_SymbolTable first)) = imap (builtin first) qualifiers
  /\ snd (new_SymbolTable first) = first + length qualifiers
  /\ allocated (first + length qualifiers) (_data (fst (new_SymbolTable first))).
Proof.
  destruct (seed_spec qualifiers {| _data := [] |} first) as (H1 & H2 & H3).
  { constructor. }
  done.
Qed.

(** One step of the walk callback, under the allocation invariant. *)
Lemma visit_fold u nodes : forall t first,
  allocated first (_data t) ->
  let r := fold_left (visit u) nodes (t, first) in
  let defs := List.filter isVariableDefinition nodes in
  _data (fst r) = _data t ++ imap (entry u first) defs
  /\ snd r = first + length defs
  /\ allocated (snd r) (_data (fst r)).
Proof.
  induction nodes as [|node rest IH]; intros t first Hal; simpl.
  - rewrite app_nil_r, Nat.add_0_r. done.
  - destruct node as [ | | | r nm v | | | ]; simpl; try (apply IH; done).
    set (node := VariableDefinition r nm v).
    set (info := {| oid := first; name := vn_value nm; uri := Some u;
                    def := Some node; value := None |}).
    assert (Hadd : _data (add info t) = _data t ++ [info])
      by (apply set_add_fresh; done).
    destruct (IH (add info t) (S first)) as (Hd & Hf & Ha).
    { rewrite Hadd. by apply allocated_snoc. }
    split; [|split].
    + rewrite Hd, Hadd, <- app_assoc. simpl. f_equal.
      unfold entry at 2. simpl. rewrite Nat.add_0_r. f_equal.
      apply imap_ext. intros k x _. unfold entry. simpl. f_equal. lia.
    + rewrite Hf. simpl. lia.
    + exact Ha.
Qed.

Lemma wf_initial_module : wf initial.
Proof. exact I. Qed.

Lemma table_allocated m : wf m -> allocated (freshAfterTable m) (_data (table m)).
Proof.
  unfold wf, table, freshAfterTable. destruct (symbols m); [done|].
  intros _. destruct (new_SymbolTable_spec (fresh m)) as (_ & -> & H). done.
Qed.

(** What [fillSymbols] does to the table. *)
Lemma fillSymbols_spec query u m :
  wf m ->
  let defs := List.filter isVariableDefinition (walk query) in
  _data (fst (fillSymbols query u m))
    = _data (table m) ++ imap (entry u (freshAfterTable m)) defs
  /\ symbols (snd (fillSymbols query u m)) = Some (fst (fillSymbols query u m))
  /\ wf (snd (fillSymbols query u m)).
Proof.
  intros Hwf. pose proof (table_allocated m Hwf) as Hal.
  unfold fillSymbols, table, freshAfterTable in *.
  destruct (symbols m) as [t|].
  - destruct (visit_fold u (walk query) t (fresh m) Hal) as (H1 & H2 & H3).
    cbn [fst snd symbols fresh wf]. auto.
  - destruct (new_SymbolTable (fresh m)) as [t f] eqn:E.
    cbn [fst snd] in Hal.
    destruct (visit_fold u (walk query) t f Hal) as (H1 & H2 & H3).
    cbn [fst snd symbols fresh wf]. auto.
Qed.

Lemma find_name_app n l l' :
  find_name n (l ++ l') =
  match find_name n l with
  | Some info => Some info
  | None => find_name n l'
  end.
Proof.
  induction l as [|x l IH]; simpl; [done|].
  destruct (String.eqb (name x) n); done.
Qed.

Lemma find_name_filter n l :
  find_name n l = head (List.filter (fun info => String.eqb (name info) n) l).
Proof.
  induction l as [|x l IH]; simpl; [done|].
  destruct (String.eqb (name x) n); done.
Qed.

(** [get] is the head of [getAll]. *)
Lemma get_head_getAll n t : get n t = head (getAll n t).
Proof. apply find_name_filter. Qed.

(** Adding never changes the resolution of a name that resolves. *)
Lemma get_add_defined n t later info :
  get n t = Some info -> get n (add later t) = Some info.
Proof.
  unfold get, add. simpl. intros H.
  destruct (set_add_extends later (_data t)) as [l' ->].
  rewrite find_name_app, H. done.
Qed.

Lemma get_adds_defined n adds : forall t info,
  get n t = Some info -> get n (fold_left (fun t i => add i t) adds t) = Some info.
Proof.
  induction adds as [|i adds IH]; intros t info H; simpl; [done|].
  apply IH. by apply get_add_defined.
Qed.


Lemma find_name_None_filter n l :
  find_name n l = None ->
  List.filter (fun info => String.eqb (name info) n) l = [].
Proof.
  induction l as [|x l IH]; simpl; [done|].
  destruct (String.eqb (name x) n); [done|exact IH].
Qed.

(** ** Resolution order *)

(** C2 (the code departs from the claim).  When two entries of one name
    are added to a table that does not define the name, [get] returns the
    one added first, not the most recently added one; [getAll] yields
    both, in the order of their addition. *)
Theorem get_returns_earliest_added
    (t : SymbolTable) (n : string) (older newer : SymbolInfo) :
  name older = n -> name newer = n ->
  get n t = None ->
  allocated (oid older) (_data t) -> oid older < oid newer ->
  let t' := add newer (add older t) in
  get n t' = Some older
  /\ get n t' <> Some newer
  /\ getAll n t' = [older; newer].
Proof.
  intros Ho Hn Hget Hal Hlt t'.
  assert (H1 : _data (add older t) = _data t ++ [older])
    by (apply set_add_fresh; done).
  assert (H2 : _data t' = _data t ++ [older; newer]).
  { unfold t'. unfold add at 1. cbn [_data]. rewrite set_add_fresh.
    - rewrite H1, <- app_assoc. done.
    - rewrite H1. apply Forall_app. split.
      + eapply allocated_mono; [|exact Hal]. lia.
      + constructor; [exact Hlt|constructor]. }
  assert (Hres : get n t' = Some older).
  { unfold get in *. rewrite H2, find_name_app, Hget. simpl.
    rewrite Ho, String.eqb_refl. done. }
  split; [exact Hres|]. split.
  - rewrite Hres. intros [= E]. rewrite E in Hlt. lia.
  - unfold getAll. rewrite H2, List.filter_app.
    unfold get in Hget. rewrite (find_name_None_filter _ _ Hget). simpl.
    rewrite Ho, Hn, String.eqb_refl. done.
Qed.

(** Two definitions of [$x] added to a new table. *)
Definition x_older : SymbolInfo :=
  {| oid := 35; name := "$x"; uri := Some "file:///a.github-issues";
     def := None; value := None |}.

Definition x_newer : SymbolInfo :=
  {| oid := 36; name := "$x"; uri := Some "file:///b.github-issues";
     def := None; value := None |}.

Lemma get_returns_earliest_added_witness :
  let t' := add x_newer (add x_older (fst (new_SymbolTable 0))) in
  get "$x" t' = Some x_older
  /\ get "$x" t' <> Some x_newer
  /\ getAll "$x" t' = [x_older; x_newer].
Proof.
  apply (get_returns_earliest_added (fst (new_SymbolTable 0)) "$x" x_older x_newer).
  - reflexivity.
  - reflexivity.
  - vm_compute. reflexivity.
  - apply (bool_decide_unpack _). vm_compute. reflexivity.
  - unfold x_older, x_newer. simpl. lia.
Defined.

(** ** Updating the table for a document *)

(** The claim C3 in the words of the specification: after an update for
    the document [u], every entry of the table that belongs to [u] is
    the definition of a node of the new tree. *)
Definition replaces_contribution (query : Node) (u : Uri) (m : Module_) : Prop :=
  forall info,
    In info (all (fst (fillSymbols query u m))) -> uri info = Some u ->
    exists node, def info = Some node /\ In node (walk query).

(** A document that defines [$x], and its next version, which no longer
    does. *)
Definition doc_v1 : Node :=
  QueryDocument {| start := 0; end_ := 12 |}
    [ VariableDefinition {| start := 0; end_ := 12 |}
        {| vn_range := {| start := 0; end_ := 2 |}; vn_value := "$x" |}
        (Query {| start := 5; end_ := 12 |}
           [Literal {| start := 5; end_ := 12 |} "is:open"]) ].

Definition doc_v2 : Node :=
  QueryDocument {| start := 0; end_ := 0 |} [].

Definition doc_uri : Uri := "file:///a.github-issues".

(** C3, counterexample: the definition of the first version is still in
    the table after the update for the second version. *)
Lemma fillSymbols_keeps_stale_entries :
  ~ replaces_contribution doc_v2 doc_uri (snd (fillSymbols doc_v1 doc_uri initial)).
Proof.
  intros H.
  destruct (H {| oid := 35; name := "$x"; uri := Some doc_uri;
                 def := Some (VariableDefinition {| start := 0; end_ := 12 |}
                    {| vn_range := {| start := 0; end_ := 2 |}; vn_value := "$x" |}
                    (Query {| start := 5; end_ := 12 |}
                       [Literal {| start := 5; end_ := 12 |} "is:open"]));
                 value := None |}) as (node & Hdef & Hin).
  - vm_compute. do 35 right. left. reflexivity.
  - reflexivity.
  - injection Hdef as <-. vm_compute in Hin.
    destruct Hin as [Hin|[]]. discriminate Hin.
Qed.

(** C3 (amended).  [fillSymbols] removes nothing: it appends, after the
    entries the table already has, one [SymbolInfo] per
    [VariableDefinition] node of the tree, in the order of the walk;
    hence every entry of the table is still there after any later
    update. *)
Theorem fillSymbols_appends (query : Node) (u : Uri) (m : Module_) :
  wf m ->
  all (fst (fillSymbols query u m))
    = all (table m)
      ++ imap (entry u (freshAfterTable m))
           (List.filter isVariableDefinition (walk query))
  /\ forall query' u' info,
       In info (all (fst (fillSymbols query u m))) ->
       In info (all (fst (fillSymbols query' u' (snd (fillSymbols query u m))))).
Proof.
  intros Hwf.
  destruct (fillSymbols_spec query u m Hwf) as (Hd & Hs & Hwf').
  split; [exact Hd|].
  intros query' u' info Hin.
  destruct (fillSymbols_spec query' u' _ Hwf') as (Hd' & _ & _).
  unfold all. rewrite Hd'. unfold table. rewrite Hs.
  apply in_or_app. left. exact Hin.
Qed.

Lemma fillSymbols_appends_witness :
  all (fst (fillSymbols doc_v1 doc_uri initial))
    = all (table initial)
      ++ imap (entry doc_uri (freshAfterTable initial))
           (List.filter isVariableDefinition (walk doc_v1))
  /\ forall query' u' info,
       In info (all (fst (fillSymbols doc_v1 doc_uri initial))) ->
       In info (all (fst (fillSymbols query' u'
                            (snd (fillSymbols doc_v1 doc_uri initial))))).
Proof. apply (fillSymbols_appends doc_v1 doc_uri initial). exact I. Defined.

(** ** Built-in qualifiers *)

(** C10.  Every name of [requiresPrType] is a key of the qualifier
    schema, and in a newly constructed table, also after any sequence of
    later additions, [get] resolves it to the built-in entry that carries
    the value domain of the schema. *)
Theorem requiresPrType_resolves :
  Forall
    (fun n =>
       exists v,
         assoc n qualifiers = Some v
         /\ forall (first : nat) (adds : list SymbolInfo),
              exists info,
                get n (fold_left (fun t i => add i t) adds
                         (fst (new_SymbolTable first))) = Some info
                /\ name info = n /\ value info = Some v
                /\ uri info = None /\ def info = None)
    requiresPrType.
Proof.
  unfold requiresPrType.
  repeat constructor;
    (eexists; split; [vm_compute; reflexivity|];
     intros first adds; eexists; split;
     [ apply get_adds_defined; unfold get;
       rewrite (proj1 (new_SymbolTable_spec first)); cbn; reflexivity
     | cbn; auto ]).
Qed.


(** ** Further properties of the table *)

Lemma find_name_imap_builtin n entries : forall first,
  match find_name n (imap (builtin first) entries), assoc n entries with
  | Some info, Some v =>
      name info = n /\ value info = Some v /\ uri info = None /\ def info = None
  | None, None => True
  | _, _ => False
  end.
Proof.
  induction entries as [|[k v] rest IH]; intros first; [done|].
  cbn [imap find_name assoc builtin name fst snd].
  destruct (String.eqb_spec k n) as [->|Hne]; [done|].
  specialize (IH (S first)).
  erewrite imap_ext; [exact IH|].
  intros i x _. unfold builtin. cbn. f_equal. lia.
Qed.

(** In a new table a name resolves exactly when it is a key of the
    qualifier schema, and then to an entry without location that carries
    the value domain of the schema; any other name is not found. *)
Theorem get_new_table (first : nat) (n : string) :
  (forall info,
     get n (fst (new_SymbolTable first)) = Some info ->
     name info = n /\ value info = assoc n qualifiers
     /\ uri info = None /\ def info = None)
  /\ (get n (fst (new_SymbolTable first)) = None <-> assoc n qualifiers = None).
Proof.
  unfold get. rewrite (proj1 (new_SymbolTable_spec first)).
  pose proof (find_name_imap_builtin n qualifiers first) as H.
  destruct (find_name n (imap (builtin first) qualifiers)) as [i|];
    destruct (assoc n qualifiers) as [v|]; try done.
  split.
  - intros info [= <-]. destruct H as (? & ? & ? & ?). done.
  - split; discriminate.
Qed.

(** An update never changes what a name resolves to once it resolves: a
    definition in a document cannot take the place of a built-in
    qualifier, nor of an earlier definition of the same name. *)
Theorem fillSymbols_keeps_resolution
    (query : Node) (u : Uri) (m : Module_) (n : string) (info : SymbolInfo) :
  wf m ->
  get n (table m) = Some info ->
  get n (fst (fillSymbols query u m)) = Some info.
Proof.
  intros Hwf H. unfold get in *.
  rewrite (proj1 (fillSymbols_spec query u m Hwf)), find_name_app, H. done.
Qed.

(** A document that defines a variable named like the qualifier
    [state]. *)
Definition doc_state : Node :=
  QueryDocument {| start := 0; end_ := 14 |}
    [ VariableDefinition {| start := 0; end_ := 14 |}
        {| vn_range := {| start := 0; end_ := 5 |}; vn_value := "state" |}
        (Query {| start := 8; end_ := 14 |}
           [Literal {| start := 8; end_ := 14 |} "closed"]) ].

Lemma fillSymbols_keeps_resolution_witness :
  get "state" (fst (fillSymbols doc_state doc_uri initial))
  = Some (builtin 0 6 ("state", OfSets [["open"; "closed"]])).
Proof.
  apply (fillSymbols_keeps_resolution doc_state doc_uri initial).
  - exact I.
  - vm_compute. reflexivity.
Defined.

(** [get] returns the first entry that [getAll] yields, and nothing
    exactly when [getAll] yields nothing; what [getAll] yields are the
    entries of the table with that name, in the order of the table. *)
Theorem get_is_first_of_getAll (n : string) (t : SymbolTable) :
  get n t = head (getAll n t)
  /\ (get n t = None <-> getAll n t = [])
  /\ (forall info, In info (getAll n t) <-> In info (all t) /\ name info = n)
  /\ sublist (getAll n t) (all t).
Proof.
  assert (H : get n t = head (getAll n t)) by apply find_name_filter.
  split; [exact H|]. split; [|split].
  - rewrite H. destruct (getAll n t); split; done.
  - intros info. unfold getAll, all. rewrite filter_In.
    split; intros [Hin Hn]; (split; [exact Hin|]).
    + by apply String.eqb_eq.
    + by apply String.eqb_eq.
  - unfold getAll, all. induction (_data t) as [|x l IH]; simpl; [done|].
    destruct (String.eqb (name x) n); by constructor.
Qed.

(** Adding an object that is already in the table changes nothing, as
    the table is a [Set] of objects; so adding an object twice is adding
    it once. *)
Theorem add_same_object_once (info : SymbolInfo) (t : SymbolTable) :
  add info (add info t) = add info t
  /\ (In info (all t) -> add info t = t).
Proof.
  assert (Hin : forall l, In info l ->
            existsb (fun i => Nat.eqb (oid i) (oid info)) l = true).
  { intros l H. apply existsb_exists. exists info.
    split; [exact H|apply Nat.eqb_refl]. }
  destruct t as [l]. unfold add, all. cbn [_data]. split.
  - f_equal.
    destruct (existsb (fun i => Nat.eqb (oid i) (oid info)) l) eqn:E.
    + assert (set_add info l = l) as -> by (unfold set_add; by rewrite E).
      unfold set_add. by rewrite E.
    + assert (set_add info l = l ++ [info]) as ->
        by (unfold set_add; by rewrite E).
      unfold set_add. rewrite Hin; [done|]. apply in_or_app. right. by left.
  - intros H. unfold set_add. by rewrite (Hin l H).
Qed.

Lemma length_filter_imap_entry u n first defs :
  length (List.filter (fun info => String.eqb (name info) n)
            (imap (entry u first) defs))
  = length (List.filter (fun node => String.eqb (definedName node) n) defs).
Proof.
  revert first. induction defs as [|x defs IH]; intros first; [done|].
  cbn [imap List.filter entry name].
  rewrite (imap_ext _ (entry u (S first))).
  - destruct (String.eqb (definedName x) n); simpl; by rewrite IH.
  - intros i y _. unfold entry. cbn. f_equal. lia.
Qed.

(** Every update for a document adds its definitions once more: after
    two updates with the same tree, [getAll] yields each definition
    twice on top of what it yielded before. *)
Theorem fillSymbols_twice_doubles (query : Node) (u : Uri) (m : Module_) (n : string) :
  wf m ->
  length (getAll n (fst (fillSymbols query u (snd (fillSymbols query u m)))))
  = length (getAll n (table m))
    + 2 * length (List.filter (fun node => String.eqb (definedName node) n)
                    (List.filter isVariableDefinition (walk query))).
Proof.
  intros Hwf.
  destruct (fillSymbols_spec query u m Hwf) as (Hd & Hs & Hwf').
  destruct (fillSymbols_spec query u _ Hwf') as (Hd' & _ & _).
  unfold getAll. rewrite Hd'. unfold table at 1. rewrite Hs, Hd.
  rewrite !List.filter_app, !length_app, !length_filter_imap_entry. lia.
Qed.

Lemma fillSymbols_twice_doubles_witness :
  length (getAll "$x"
            (fst (fillSymbols doc_v1 doc_uri (snd (fillSymbols doc_v1 doc_uri initial)))))
  = 2.
Proof.
  rewrite (fillSymbols_twice_doubles doc_v1 doc_uri initial "$x").
  - vm_compute. reflexivity.
  - exact I.
Defined.

End SymbolsFacts.

(* ===================================================================== *)
(** * Properties of the pure parts of the provider *)
(* ===================================================================== *)

Module ProviderFacts.
Import Provider.

(** ** [escapeHtml] *)

(** The seven characters the claim C8 lists. *)
Definition listed : list ascii :=
  [ "<"%char; ">"%char; dquote; "'"%char; "`"%char; "="%char; "/"%char ].

(** The claim in its own words: every character of [chars] is replaced
    by its entity of the entity map, every other character is kept. *)
Fixpoint replaced (chars : list ascii) (s : string) : string :=
  match s with
  | EmptyString => EmptyString
  | String c s' =>
      if existsb (Ascii.eqb c) chars
      then String.append (entity c entityMap) (replaced chars s')
      else String c (replaced chars s')
  end.

(** C8, counterexample: the ampersand is not one of the seven listed
    characters, and it is not preserved. *)
Lemma escapeHtml_rewrites_ampersand :
  escapeHtml "&" <> replaced listed "&".
Proof. vm_compute. discriminate. Qed.

Lemma in_append c (s1 s2 : string) :
  In c (list_ascii_of_string (String.append s1 s2)) <->
  In c (list_ascii_of_string s1) \/ In c (list_ascii_of_string s2).
Proof.
  induction s1 as [|x s1 IH]; simpl.
  - tauto.
  - rewrite IH. tauto.
Qed.

(** No entity contains a listed character, and a character outside the
    class is not a listed one. *)
Lemma piece_clean (c x : ascii) :
  In x listed ->
  (special c = true -> ~ In x (list_ascii_of_string (entity c entityMap)))
  /\ (special c = false -> x <> c).
Proof.
  intros Hx.
  assert (Hb : forallb (fun x =>
            if special c
            then negb (existsb (Ascii.eqb x)
                         (list_ascii_of_string (entity c entityMap)))
            else negb (Ascii.eqb x c)) listed = true).
  { destruct c as [[] [] [] [] [] [] [] []]; vm_compute; reflexivity. }
  rewrite forallb_forall in Hb. specialize (Hb x Hx).
  split; intros Hs; rewrite Hs in Hb.
  - intros Hin. apply negb_true_iff in Hb.
    assert (existsb (Ascii.eqb x)
              (list_ascii_of_string (entity c entityMap)) = true) as E.
    { apply existsb_exists. exists x. split; [exact Hin|apply Ascii.eqb_refl]. }
    congruence.
  - intros ->. rewrite Ascii.eqb_refl in Hb. discriminate.
Qed.

(** C8 (amended).  The result of [escapeHtml] contains none of the
    characters less-than, greater-than, double quote, single quote,
    backtick, equals sign and slash; each of these and the ampersand is
    replaced by its entity of the entity map, and every other character
    is preserved, in order. *)
Theorem escapeHtml_spec (s : string) :
  (forall x, In x listed -> ~ In x (list_ascii_of_string (escapeHtml s)))
  /\ escapeHtml s = replaced ("&"%char :: listed) s.
Proof.
  split.
  - intros x Hx. induction s as [|c s IH]; simpl; [tauto|].
    destruct (piece_clean c x Hx) as [H1 H2].
    destruct (special c) eqn:E.
    + rewrite in_append. intros [H|H]; [exact (H1 eq_refl H)|exact (IH H)].
    + simpl. intros [H|H]; [exact (H2 eq_refl (eq_sym H))|exact (IH H)].
  - induction s as [|c s IH]; simpl; [reflexivity|].
    rewrite <- IH. reflexivity.
Qed.

(** ** [cmp.invert] *)

(** C9.  [invert(c)(a, b)] is the negation of [c(a, b)], and inverting
    twice gives back a comparator equal to [c] at every pair. *)
Theorem invert_negates (T : Type) (c : T -> T -> jsnum) (a b : T) :
  invert c a b = jneg (c a b)
  /\ invert (invert c) a b = c a b.
Proof.
  unfold invert. destruct (c a b) as [z|]; simpl; [|done].
  split; f_equal; lia.
Qed.

(** ** The choice of the comparator *)

(** The sub-queries declare one and the same sort field. *)
Definition share_sort_field (allQueryData : list QueryData) : Prop :=
  exists f, forall item, In item allQueryData -> sort item = Some f.

(** The claim C5 in its own words: the sort is applied exactly when there
    are two or more sub-queries that declare the identical sort field. *)
Definition sort_applied_as_claimed (allQueryData : list QueryData) : Prop :=
  is_Some (comparator allQueryData) <->
  2 <= length allQueryData /\ share_sort_field allQueryData.

(** Two sub-queries sorted by reactions. *)
Definition by_reactions : list QueryData :=
  [ {| q := "is:open"; sort := Some "reactions"; order := Some desc |};
    {| q := "is:closed"; sort := Some "reactions"; order := Some desc |} ].

(** C5, counterexample: two sub-queries share the sort field
    [reactions], for which [byName] has no comparator; nothing is
    sorted. *)
Lemma shared_field_without_comparator :
  ~ sort_applied_as_claimed by_reactions.
Proof.
  intros [_ H].
  assert (Hs : is_Some (comparator by_reactions)).
  { apply H. split; [simpl; lia|].
    exists "reactions". intros item [<-|[<-|[]]]; reflexivity. }
  destruct Hs as [c Hc]. vm_compute in Hc. discriminate.
Qed.

Lemma byName_get_is_Some key :
  is_Some (byName_get key) <->
  exists f, key = Some f /\ In f ["comments"; "created"; "updated"].
Proof.
  split.
  - intros [c Hc]. destruct key as [k|]; [|discriminate].
    exists k. split; [done|]. revert Hc. cbn -[String.eqb].
    destruct (String.eqb_spec "comments" k) as [<-|_]; [auto|].
    destruct (String.eqb_spec "created" k) as [<-|_]; [auto|].
    destruct (String.eqb_spec "updated" k) as [<-|_]; [auto|].
    discriminate.
  - intros (f & -> & Hf). simpl in Hf.
    destruct Hf as [<-|[<-|[<-|[]]]]; simpl; eauto.
Qed.

Lemma every_same_sort (first : QueryData) l :
  forallb (fun item => bool_decide (sort item = sort first)) l = true <->
  forall item, In item l -> sort item = sort first.
Proof.
  rewrite forallb_forall. split; intros H item Hin.
  - specialize (H item Hin). by apply bool_decide_eq_true in H.
  - apply bool_decide_eq_true. auto.
Qed.

Lemma comparator_is_Some allQueryData :
  is_Some (comparator allQueryData) <->
  2 <= length allQueryData
  /\ exists f, In f ["comments"; "created"; "updated"]
       /\ forall item, In item allQueryData -> sort item = Some f.
Proof.
  unfold comparator. destruct allQueryData as [|first rest].
  - split; [intros [? [=]]|simpl; lia].
  - pose proof (every_same_sort first (first :: rest)) as Hsame.
    destruct (Nat.leb_spec 2 (length (first :: rest))) as [Hlen|Hlen];
      cbn [andb].
    + destruct (forallb (fun item => bool_decide (sort item = sort first))
                  (first :: rest)) eqn:E.
      * assert (E' := proj1 Hsame eq_refl). clear E Hsame.
        rewrite byName_get_is_Some.
        split.
        -- intros (f & Hf & Hin). split; [done|]. exists f. split; [done|].
           intros item Hitem. rewrite (E' item Hitem). done.
        -- intros (_ & f & Hin & Hall). exists f. split; [|done].
           apply Hall. left. done.
      * split; [intros [? [=]]|].
        intros (_ & f & _ & Hall). exfalso.
        assert (false = true) as E'; [|discriminate].
        apply Hsame. intros item Hitem.
        rewrite (Hall item Hitem), (Hall first); [done|by left].
    + split; [intros [? [=]]|]. intros [H _]. lia.
Qed.

(** The comparator, when there is one, is the entry of [byName] for the
    sort field that the sub-queries share, and the sort step is the
    host's sort of the items with it: the inversion of the comparator is
    tied to the sort field being [asc], for which [byName] has no
    entry. *)
Lemma comparator_Some (allQueryData : list QueryData) (c : ItemComparator) :
  comparator allQueryData = Some c ->
  (exists first rest f,
     allQueryData = first :: rest
     /\ sort first = Some f
     /\ ((f = "comments" /\ c = compareByComments)
         \/ (f = "created" /\ c = compareByCreated)
         \/ (f = "updated" /\ c = compareByUpdated)))
  /\ forall allItems, sorted allQueryData allItems = Array_sort c allItems.
Proof.
  intros Hc.
  assert (Hf : exists first rest f,
             allQueryData = first :: rest
             /\ sort first = Some f
             /\ ((f = "comments" /\ c = compareByComments)
                 \/ (f = "created" /\ c = compareByCreated)
                 \/ (f = "updated" /\ c = compareByUpdated))).
  { destruct allQueryData as [|first rest]; [discriminate|].
    unfold comparator in Hc.
    destruct (_ && _); [|discriminate].
    destruct (sort first) as [k|] eqn:Es; [|discriminate].
    exists first, rest, k. split; [done|]. split; [done|].
    cbn -[String.eqb] in Hc.
    destruct (String.eqb_spec "comments" k) as [<-|_];
      [left; split; [done|congruence]|].
    destruct (String.eqb_spec "created" k) as [<-|_];
      [right; left; split; [done|congruence]|].
    destruct (String.eqb_spec "updated" k) as [<-|_];
      [right; right; split; [done|congruence]|].
    discriminate. }
  split; [exact Hf|].
  destruct Hf as (first & rest & f & -> & Hs & Hf). intros allItems.
  unfold sorted. rewrite Hc.
  rewrite bool_decide_eq_false_2; [done|].
  rewrite Hs. destruct Hf as [[-> _]|[[-> _]|[-> _]]]; discriminate.
Qed.

(** C5 (amended).  The sort is applied exactly when there are two or
    more sub-queries, all of which declare the same sort field, and that
    field is one of [comments], [created] and [updated]: the items are
    then sorted by the host's sort with the comparator that [byName] has
    for the field.  In every other case the items stay in the order of
    the concatenation of what the sub-queries fetched. *)
Theorem sort_applied_iff (allQueryData : list QueryData) :
  (is_Some (comparator allQueryData) <->
     2 <= length allQueryData
     /\ exists f, In f ["comments"; "created"; "updated"]
          /\ forall item, In item allQueryData -> sort item = Some f)
  /\ (forall c,
        comparator allQueryData = Some c ->
        (exists first rest f,
           allQueryData = first :: rest
           /\ sort first = Some f
           /\ ((f = "comments" /\ c = compareByComments)
               \/ (f = "created" /\ c = compareByCreated)
               \/ (f = "updated" /\ c = compareByUpdated)))
        /\ forall allItems : list Item,
             sorted allQueryData allItems = Array_sort c allItems)
  /\ (comparator allQueryData = None ->
      forall fetched : list (list Item),
        sorted allQueryData (concat fetched) = concat fetched).
Proof.
  split; [apply comparator_is_Some|]. split; [apply comparator_Some|].
  intros Hnone fetched. unfold sorted.
  destruct allQueryData; [reflexivity|]. rewrite Hnone. reflexivity.
Qed.


(** ** The render loop *)

(** The general form, for a loop that starts with some URLs seen. *)
Lemma rendered_from seen allItems :
  NoDup (map url (rendered seen allItems))
  /\ (forall item, In item (rendered seen allItems) -> url item ∉ seen)
  /\ sublist (rendered seen allItems) allItems
  /\ (forall item, In item allItems -> url item ∉ seen ->
        In (url item) (map url (rendered seen allItems)))
  /\ (forall item, In item (rendered seen allItems) ->
        List.find (fun x => String.eqb (url x) (url item)) allItems = Some item).
Proof.
  revert seen. induction allItems as [|x l IH]; intros seen; simpl.
  - split; [constructor|]. split; [tauto|]. split; [done|]. split; tauto.
  - destruct (bool_decide_reflect (url x ∈ seen)) as [Hx|Hx].
    + destruct (IH seen) as (H1 & H2 & H3 & H4 & H5).
      split; [done|]. split; [done|]. split; [by constructor|]. split.
      * intros item [<-|Hin] Hs; [done|]. by apply H4.
      * intros item Hin.
        destruct (String.eqb_spec (url x) (url item)) as [E|_]; [|by apply H5].
        exfalso. apply (H2 item Hin). by rewrite <- E.
    + destruct (IH ({[ url x ]} ∪ seen)) as (H1 & H2 & H3 & H4 & H5).
      assert (Hout : forall item, In item (rendered ({[ url x ]} ∪ seen) l) ->
                url item <> url x /\ url item ∉ seen).
      { intros item Hin. specialize (H2 item Hin).
        rewrite elem_of_union, elem_of_singleton in H2. tauto. }
      split; [|split; [|split; [|split]]].
      * simpl. constructor; [|done].
        intros Hin. apply list_elem_of_In, in_map_iff in Hin as (y & Hy & Hin).
        by destruct (Hout y Hin).
      * intros item [<-|Hin]; [done|]. by destruct (Hout item Hin).
      * by constructor.
      * intros item [<-|Hin] Hs; simpl; [by left|].
        destruct (String.eqb_spec (url x) (url item)) as [E|Hne]; [by left|].
        right. apply H4; [done|].
        rewrite elem_of_union, elem_of_singleton. intros [E|E]; auto.
      * intros item [<-|Hin].
        -- by rewrite String.eqb_refl.
        -- destruct (String.eqb_spec (url x) (url item)) as [E|_];
             [|by apply H5].
           by destruct (Hout item Hin).
Qed.

(** The rows of the render loop: no URL occurs twice; the rows are items
    of the input, in their order; every URL of the input is the URL of a
    row; a row is the first item of the input with its URL; and the
    count that the status line shows is the number of distinct URLs. *)
Theorem rendered_keeps_first_of_each_url (allItems : list Item) :
  NoDup (map url (rendered ∅ allItems))
  /\ sublist (rendered ∅ allItems) allItems
  /\ (forall item, In item allItems ->
        In (url item) (map url (rendered ∅ allItems)))
  /\ (forall item, In item (rendered ∅ allItems) ->
        List.find (fun x => String.eqb (url x) (url item)) allItems = Some item)
  /\ length (rendered ∅ allItems)
     = size (list_to_set (map url allItems) : gset string).
Proof.
  destruct (rendered_from ∅ allItems) as (H1 & H2 & H3 & H4 & H5).
  split; [done|]. split; [done|]. split; [|split; [done|]].
  - intros item Hin. apply H4; [done|]. apply not_elem_of_empty.
  - rewrite <- (length_map url).
    assert (E : (list_to_set (map url allItems) : gset string)
                = list_to_set (map url (rendered ∅ allItems))).
    { apply set_eq. intros u. rewrite !elem_of_list_to_set, !list_elem_of_In.
      split; intros Hu; apply in_map_iff in Hu as (y & <- & Hy).
      - apply H4; [done|]. apply not_elem_of_empty.
      - apply in_map_iff. exists y. split; [done|].
        apply list_elem_of_In. eapply elem_of_sublist; [|exact H3].
        by apply list_elem_of_In. }
    rewrite E. symmetry. by apply size_list_to_set.
Qed.

(** Sample items. *)
Definition item_in (repo u : string) : Item :=
  {| url := u; html_url := u; repository_url := repo; number := 1; title := u;
     comments := 0; created_at := "2023-01-01"; updated_at := "2023-01-01" |}.

Definition item_with (u : string) (n : Z) : Item :=
  {| url := u; html_url := u; repository_url := "r"; number := 1; title := u;
     comments := n; created_at := "2023-01-01"; updated_at := "2023-01-01" |}.

(** ** The sort step *)

Lemma comparator_by_sorts qs qs' :
  map sort qs = map sort qs' -> comparator qs = comparator qs'.
Proof.
  intros H. unfold comparator.
  destruct qs as [|a l], qs' as [|a' l']; try discriminate; [done|].
  injection H as Ha Hl.
  assert (length (a :: l) = length (a' :: l')) as ->.
  { simpl. f_equal. by rewrite <- (length_map sort l), Hl, length_map. }
  assert (forallb (fun item => bool_decide (sort item = sort a)) (a :: l)
          = forallb (fun item => bool_decide (sort item = sort a')) (a' :: l'))
    as ->; [|by rewrite Ha].
  simpl. rewrite Ha. f_equal.
  clear -Hl. revert l' Hl. induction l as [|x l IH]; intros [|x' l'] Hl;
    try discriminate; [done|].
  injection Hl as Hx Hl. simpl. rewrite Hx. f_equal. by apply IH.
Qed.

(** The merged order depends on the sort fields of the sub-queries
    only: neither the declared order ([asc] or [desc]) nor the query
    text has any influence on it. *)
Theorem sorted_ignores_order (qs qs' : list QueryData) (allItems : list Item) :
  map sort qs = map sort qs' ->
  sorted qs allItems = sorted qs' allItems.
Proof.
  intros H. unfold sorted.
  pose proof (comparator_by_sorts qs qs' H) as Hc.
  destruct qs as [|a l], qs' as [|a' l']; try discriminate; [done|].
  rewrite Hc. injection H as -> _. done.
Qed.

(** The same two sub-queries in ascending order. *)
Definition by_created (o : Order) : list QueryData :=
  [ {| q := "is:open"; sort := Some "created"; order := Some o |};
    {| q := "is:closed"; sort := Some "created"; order := Some o |} ].

Lemma sorted_ignores_order_witness :
  sorted (by_created asc) [item_with "a" 2; item_with "b" 1]
  = sorted (by_created desc) [item_with "a" 2; item_with "b" 1].
Proof.
  apply (sorted_ignores_order (by_created asc) (by_created desc)).
  reflexivity.
Defined.

Lemma insert_Permutation c x l : insert c x l ≡ₚ x :: l.
Proof.
  induction l as [|y l IH]; simpl; [done|].
  destruct (before c x y); [done|].
  rewrite IH. apply Permutation_swap.
Qed.

Lemma Array_sort_Permutation c l : Array_sort c l ≡ₚ l.
Proof.
  induction l as [|x l IH]; simpl; [done|].
  unfold Array_sort in *. simpl. rewrite insert_Permutation. by rewrite IH.
Qed.

(** The sort step only reorders: the items after it are a permutation
    of the items fetched, duplicates included. *)
Theorem sorted_Permutation (qs : list QueryData) (allItems : list Item) :
  sorted qs allItems ≡ₚ allItems.
Proof.
  unfold sorted. destruct qs as [|a l]; [done|].
  destruct (comparator (a :: l)); [|done].
  apply Array_sort_Permutation.
Qed.

(** Sorting by a comparator that is the difference of an integer key
    yields increasing keys. *)
Lemma insert_sorted (key : Item -> Z) c x l :
  (forall a b, c a b = Num (key a - key b)) ->
  StronglySorted (fun a b => (key a <= key b)%Z) l ->
  StronglySorted (fun a b => (key a <= key b)%Z) (insert c x l).
Proof.
  intros Hc. induction 1 as [|y l Hs IH Hall]; simpl.
  - repeat constructor.
  - unfold before. rewrite Hc. destruct (Z.leb_spec (key x - key y) 0).
    + constructor; [by constructor|]. constructor; [lia|].
      eapply Forall_impl; [exact Hall|]. simpl. intros z Hz. lia.
    + constructor; [exact IH|].
      assert (Hp : insert c x l ≡ₚ x :: l) by apply insert_Permutation.
      rewrite Hp. constructor; [lia|exact Hall].
Qed.

Lemma Array_sort_sorted (key : Item -> Z) c l :
  (forall a b, c a b = Num (key a - key b)) ->
  StronglySorted (fun a b => (key a <= key b)%Z) (Array_sort c l).
Proof.
  intros Hc. induction l as [|x l IH]; [constructor|].
  unfold Array_sort in *. simpl. by apply insert_sorted.
Qed.

(** When two or more sub-queries all sort by [comments], the merged
    items are in order of increasing comment count, whatever order the
    sub-queries declare. *)
Theorem comments_merge_is_ascending (qs : list QueryData) (allItems : list Item) :
  2 <= length qs ->
  (forall item, In item qs -> sort item = Some "comments") ->
  StronglySorted (fun a b => (comments a <= comments b)%Z) (sorted qs allItems).
Proof.
  intros Hlen Hall. unfold sorted, comparator.
  destruct qs as [|a l]; [simpl in Hlen; lia|].
  assert (Ha : sort a = Some "comments") by (apply Hall; by left).
  assert (E : forallb (fun item => bool_decide (sort item = sort a)) (a :: l)
              = true).
  { apply every_same_sort. intros item Hin. by rewrite (Hall item Hin), Ha. }
  rewrite E. destruct (Nat.leb_spec 2 (length (a :: l))); [|lia].
  rewrite Ha. cbn -[Array_sort].
  apply Array_sort_sorted. intros x y. reflexivity.
Qed.

Definition by_comments : list QueryData :=
  [ {| q := "is:open"; sort := Some "comments"; order := Some desc |};
    {| q := "is:closed"; sort := Some "comments"; order := Some desc |} ].

Lemma comments_merge_is_ascending_witness :
  StronglySorted (fun a b => (comments a <= comments b)%Z)
    (sorted by_comments [item_with "a" 5; item_with "b" 1; item_with "c" 3]).
Proof.
  apply (comments_merge_is_ascending by_comments
           [item_with "a" 5; item_with "b" 1; item_with "c" 3]).
  - simpl. lia.
  - intros item [<-|[<-|[]]]; reflexivity.
Defined.

(** The time stamp as an integer; zero when it does not parse. *)
Definition stamp (s : string) : Z :=
  match Date_parse s with
  | Num z => z
  | NaN => 0%Z
  end.

Lemma insert_sorted_in (key : Item -> Z) c x l :
  (forall a b, In a (x :: l) -> In b (x :: l) -> c a b = Num (key a - key b)) ->
  StronglySorted (fun a b => (key a <= key b)%Z) l ->
  StronglySorted (fun a b => (key a <= key b)%Z) (insert c x l).
Proof.
  intros Hc Hs. induction Hs as [|y l Hs IH Hall]; simpl.
  - repeat constructor.
  - unfold before. rewrite Hc by (simpl; auto).
    destruct (Z.leb_spec (key x - key y) 0).
    + constructor; [by constructor|]. constructor; [lia|].
      eapply Forall_impl; [exact Hall|]. simpl. intros z Hz. lia.
    + constructor.
      * apply IH. intros a b Ha Hb. apply Hc; simpl in *; tauto.
      * assert (Hp : insert c x l ≡ₚ x :: l) by apply insert_Permutation.
        rewrite Hp. constructor; [lia|exact Hall].
Qed.

Lemma Array_sort_sorted_in (key : Item -> Z) c l :
  (forall a b, In a l -> In b l -> c a b = Num (key a - key b)) ->
  StronglySorted (fun a b => (key a <= key b)%Z) (Array_sort c l).
Proof.
  intros Hc. induction l as [|x l IH]; [constructor|].
  unfold Array_sort in *. simpl. apply insert_sorted_in.
  - assert (Hp : foldr (insert c) [] l ≡ₚ l) by apply Array_sort_Permutation.
    intros a b Ha Hb. apply Hc.
    + destruct Ha as [<-|Ha]; [by left|right].
      apply list_elem_of_In. rewrite <- Hp. by apply list_elem_of_In.
    + destruct Hb as [<-|Hb]; [by left|right].
      apply list_elem_of_In. rewrite <- Hp. by apply list_elem_of_In.
  - apply IH. intros a b Ha Hb. apply Hc; by right.
Qed.

(** When two or more sub-queries all sort by [created] and the creation
    dates of the items parse, the merged items are in order of
    increasing creation date, oldest first, whatever order the
    sub-queries declare. *)
Theorem created_merge_is_oldest_first (qs : list QueryData) (allItems : list Item) :
  2 <= length qs ->
  (forall item, In item qs -> sort item = Some "created") ->
  (forall x, In x allItems -> Date_parse (created_at x) <> NaN) ->
  StronglySorted
    (fun a b => (stamp (created_at a) <= stamp (created_at b))%Z)
    (sorted qs allItems).
Proof.
  intros Hlen Hall Hparse. unfold sorted, comparator.
  destruct qs as [|a l]; [simpl in Hlen; lia|].
  assert (Ha : sort a = Some "created") by (apply Hall; by left).
  assert (E : forallb (fun item => bool_decide (sort item = sort a)) (a :: l)
              = true).
  { apply every_same_sort. intros item Hin. by rewrite (Hall item Hin), Ha. }
  rewrite E. destruct (Nat.leb_spec 2 (length (a :: l))); [|lia].
  rewrite Ha. cbn -[Array_sort Date_parse].
  apply Array_sort_sorted_in. intros x y Hx Hy.
  unfold compareByCreated, stamp.
  pose proof (Hparse x Hx). pose proof (Hparse y Hy).
  rewrite (bool_decide_eq_false_2 (Some "created" = Some "asc")) by discriminate.
  destruct (Date_parse (created_at x)), (Date_parse (created_at y));
    simpl; congruence.
Qed.

Definition item_on (u created : string) : Item :=
  {| url := u; html_url := u; repository_url := "r"; number := 1; title := u;
     comments := 0; created_at := created; updated_at := created |}.

Lemma created_merge_is_oldest_first_witness :
  StronglySorted
    (fun a b => (stamp (created_at a) <= stamp (created_at b))%Z)
    (sorted (by_created desc)
       [item_on "A" "2023-01-01"; item_on "B" "2023-02-01";
        item_on "C" "2023-01-15T10:00:00Z"]).
Proof.
  apply (created_merge_is_oldest_first (by_created desc)
           [item_on "A" "2023-01-01"; item_on "B" "2023-02-01";
            item_on "C" "2023-01-15T10:00:00Z"]).
  - simpl. lia.
  - intros item [<-|[<-|[]]]; reflexivity.
  - intros x [<-|[<-|[<-|[]]]]; vm_compute; discriminate.
Defined.

(** ** [hasManyRepos] *)

Lemma hasManyRepos_from_set r allItems :
  r <> "" ->
  hasManyRepos_from (Some r) allItems = true <->
  exists item, In item allItems /\ repository_url item <> r.
Proof.
  intros Hr. induction allItems as [|x l IH]; simpl.
  - split; [discriminate|]. intros (item & [] & _).
  - destruct (String.eqb_spec r "") as [E|_]; [done|].
    destruct (bool_decide_reflect (Some r = Some (repository_url x))) as [E|E].
    + injection E as E. rewrite IH. split.
      * intros (item & Hin & Hne). exists item. split; [by right|done].
      * intros (item & [<-|Hin] & Hne); [congruence|]. by exists item.
    + split; [|done]. intros _. exists x. split; [by left|]. congruence.
Qed.

(** When no item has an empty repository URL, [hasManyRepos] is set
    exactly when two of the items belong to different repositories; for
    no items, or items of one repository, it stays [false]. *)
Theorem hasManyRepos_iff (allItems : list Item) :
  (forall item, In item allItems -> repository_url item <> "") ->
  hasManyRepos allItems = true <->
  exists a b, In a allItems /\ In b allItems
              /\ repository_url a <> repository_url b.
Proof.
  intros Hne. unfold hasManyRepos. destruct allItems as [|x l]; simpl.
  - split; [discriminate|]. intros (a & _ & [] & _).
  - assert (Hx : repository_url x <> "") by (apply Hne; by left).
    rewrite (hasManyRepos_from_set _ _ Hx). split.
    + intros (item & Hin & Hd). exists item, x.
      split; [by right|]. split; [by left|done].
    + intros (a & b & Ha & Hb & Hd).
      destruct (String.eqb_spec (repository_url a) (repository_url x)) as [Ea|Na].
      * destruct Hb as [<-|Hb]; [congruence|].
        exists b. split; [done|]. congruence.
      * destruct Ha as [<-|Ha]; [done|]. by exists a.
Qed.

Lemma hasManyRepos_iff_witness :
  hasManyRepos [item_in "r1" "a"; item_in "r1" "b"; item_in "r2" "c"] = true.
Proof.
  apply (hasManyRepos_iff [item_in "r1" "a"; item_in "r1" "b"; item_in "r2" "c"]).
  - intros item [<-|[<-|[<-|[]]]]; discriminate.
  - exists (item_in "r1" "a"), (item_in "r2" "c").
    split; [by left|]. split; [right; right; by left|]. discriminate.
Defined.

(** An item without repository URL does not count as a repository: the
    loop takes the URL of the next item as the first one. *)
Theorem hasManyRepos_skips_empty (x : Item) (allItems : list Item) :
  repository_url x = "" ->
  hasManyRepos (x :: allItems) = hasManyRepos allItems.
Proof.
  intros Hx. unfold hasManyRepos. simpl. rewrite Hx.
  destruct allItems as [|y l]; reflexivity.
Qed.

Lemma hasManyRepos_skips_empty_witness :
  hasManyRepos [item_in "" "a"; item_in "r2" "c"] = hasManyRepos [item_in "r2" "c"].
Proof. apply (hasManyRepos_skips_empty (item_in "" "a")). reflexivity. Defined.

(** ** Further properties of [escapeHtml] *)

Lemma length_append (s1 s2 : string) :
  String.length (String.append s1 s2) = String.length s1 + String.length s2.
Proof. induction s1 as [|c s1 IH]; simpl; [done|]. by rewrite IH. Qed.

(** Every entity starts with an ampersand and is longer than one
    character. *)
Lemma entity_shape (c : ascii) :
  special c = true ->
  exists c' rest, entity c entityMap = String "&"%char (String c' rest).
Proof.
  intros H.
  destruct c as [[] [] [] [] [] [] [] []]; vm_compute in H;
    try discriminate H; vm_compute; eauto.
Qed.

Lemma escapeHtml_plain (s : string) :
  (forall c, In c (list_ascii_of_string s) -> special c = false) ->
  escapeHtml s = s.
Proof.
  induction s as [|c s IH]; intros H; cbn [escapeHtml]; [done|].
  rewrite (H c) by (by left). f_equal. apply IH. intros x Hx. apply H. by right.
Qed.

Lemma escapeHtml_length (s : string) :
  String.length s <= String.length (escapeHtml s)
  /\ ((exists c, In c (list_ascii_of_string s) /\ special c = true) ->
      String.length s < String.length (escapeHtml s)).
Proof.
  induction s as [|c s [IH1 IH2]];
    cbn [escapeHtml list_ascii_of_string String.length].
  - split; [done|]. intros (c & [] & _).
  - destruct (special c) eqn:E.
    + destruct (entity_shape c E) as (c' & rest & ->).
      rewrite length_append. simpl. split; [lia|]. intros _. lia.
    + simpl. split; [lia|].
      intros (x & [<-|Hx] & Hs); [congruence|].
      assert (String.length s < String.length (escapeHtml s)); [|lia].
      apply IH2. by exists x.
Qed.

Lemma escapeHtml_has_ampersand (s : string) (c : ascii) :
  In c (list_ascii_of_string s) -> special c = true ->
  In "&"%char (list_ascii_of_string (escapeHtml s)).
Proof.
  induction s as [|x s IH]; cbn [escapeHtml list_ascii_of_string]; [done|].
  intros Hin Hc. destruct (special x) eqn:E.
  - destruct (entity_shape x E) as (c' & rest & ->). simpl. by left.
  - destruct Hin as [<-|Hin]; [congruence|]. simpl. right. by apply IH.
Qed.

Lemma no_special_dec (s : string) :
  (forall c, In c (list_ascii_of_string s) -> special c = false)
  \/ (exists c, In c (list_ascii_of_string s) /\ special c = true).
Proof.
  induction s as [|x s [IH|(c & Hc & Hs)]]; simpl.
  - left. intros c [].
  - destruct (special x) eqn:E.
    + right. exists x. split; [by left|done].
    + left. intros c [<-|Hc]; [done|]. by apply IH.
  - right. exists c. split; [by right|done].
Qed.

(** The result is never shorter than the input.  It equals the input
    exactly when the input has none of the eight characters, and
    escaping an escaped string gives it back only in that case: as every
    entity begins with an ampersand, escaping twice escapes the
    entities again. *)
Theorem escapeHtml_fixed_points (s : string) :
  String.length s <= String.length (escapeHtml s)
  /\ (escapeHtml s = s <->
      forall c, In c (list_ascii_of_string s) -> special c = false)
  /\ (escapeHtml (escapeHtml s) = escapeHtml s <->
      forall c, In c (list_ascii_of_string s) -> special c = false).
Proof.
  assert (Hfix : forall t, escapeHtml t = t <->
            forall c, In c (list_ascii_of_string t) -> special c = false).
  { intros t. split; [|apply escapeHtml_plain].
    intros E. destruct (no_special_dec t) as [H|H]; [done|].
    apply (proj2 (escapeHtml_length t)) in H. rewrite E in H. lia. }
  split; [apply escapeHtml_length|]. split; [apply Hfix|].
  split.
  - intros E. pose proof (proj1 (Hfix (escapeHtml s)) E) as E'. clear E.
    rename E' into E.
    destruct (no_special_dec s) as [H|(c & Hc & Hs)]; [done|].
    pose proof (escapeHtml_has_ampersand s c Hc Hs) as Hamp.
    apply E in Hamp. discriminate.
  - intros H. rewrite (escapeHtml_plain s H). by apply escapeHtml_plain.
Qed.

Lemma append_assoc (a b c : string) :
  String.append (String.append a b) c = String.append a (String.append b c).
Proof.
  induction a as [|x a IH]; [done|].
  change (String x (String.append (String.append a b) c)
          = String x (String.append a (String.append b c))).
  by rewrite IH.
Qed.

(** Escaping distributes over concatenation: a text may be escaped
    piece by piece. *)
Theorem escapeHtml_append (s1 s2 : string) :
  escapeHtml (String.append s1 s2)
  = String.append (escapeHtml s1) (escapeHtml s2).
Proof.
  induction s1 as [|c s1 IH]; [done|].
  change (String.append (String c s1) s2) with (String c (String.append s1 s2)).
  cbn [escapeHtml]. rewrite IH. destruct (special c); [|done].
  symmetry. apply append_assoc.
Qed.

End ProviderFacts.

(* ===================================================================== *)
(** * Properties of the executions *)
(* ===================================================================== *)

Module KernelFacts.
Import Provider Kernel.

(** ** What the methods touch *)

Lemma isLatest_true e w :
  _isLatest e w = true <-> _tokens w !! cell e = Some (_token e).
Proof. unfold _isLatest. apply bool_decide_eq_true. Qed.

Lemma isLatest_false e w :
  _isLatest e w = false <-> _tokens w !! cell e <> Some (_token e).
Proof. unfold _isLatest. apply bool_decide_eq_false. Qed.

Lemma cancel_tokens e w :
  _tokens (cancel e w) =
  if _isLatest e w then delete (cell e) (_tokens w) else _tokens w.
Proof. unfold cancel. destruct (_isLatest e w); reflexivity. Qed.

Lemma cancel_pool e w : _tokenPool (cancel e w) = _tokenPool w.
Proof. unfold cancel. destruct (_isLatest e w); reflexivity. Qed.

Lemma cancel_cancelled e w :
  cancelled (cancel e w) =
  if _isLatest e w then {[ _token e ]} ∪ cancelled w else cancelled w.
Proof. unfold cancel. destruct (_isLatest e w); reflexivity. Qed.

Lemma cancel_requests e w : requests (cancel e w) = requests w.
Proof. unfold cancel. destruct (_isLatest e w); reflexivity. Qed.

Lemma resolve_statics e outs message w :
  _tokens (resolve e outs message w) = _tokens w
  /\ _tokenPool (resolve e outs message w) = _tokenPool w
  /\ cancelled (resolve e outs message w) = cancelled w
  /\ requests (resolve e outs message w) = requests w.
Proof. unfold resolve. destruct (_isLatest e w); done. Qed.

Lemma reject_statics e err w :
  _tokens (reject e err w) = _tokens w
  /\ _tokenPool (reject e err w) = _tokenPool w
  /\ cancelled (reject e err w) = cancelled w
  /\ requests (reject e err w) = requests w.
Proof. unfold reject. destruct (_isLatest e w); done. Qed.

Lemma onDidChangeCellOutputs_statics c w :
  _tokens (onDidChangeCellOutputs c w) = _tokens w
  /\ _tokenPool (onDidChangeCellOutputs c w) = _tokenPool w
  /\ cancelled (onDidChangeCellOutputs c w) = cancelled w
  /\ requests (onDidChangeCellOutputs c w) = requests w.
Proof. unfold onDidChangeCellOutputs. destruct (_ =? _)%nat; done. Qed.

Lemma cancelCellExecution_pool c w :
  _tokenPool (cancelCellExecution c w) = _tokenPool w.
Proof.
  unfold cancelCellExecution. destruct (_cellExecutions w !! c); [|done].
  apply cancel_pool.
Qed.

Lemma cancelCellExecution_requests c w :
  requests (cancelCellExecution c w) = requests w.
Proof.
  unfold cancelCellExecution. destruct (_cellExecutions w !! c); [|done].
  apply cancel_requests.
Qed.

Lemma startCell_statics c w :
  _token (fst (startCell c w)) = _tokenPool w
  /\ cell (fst (startCell c w)) = c
  /\ _tokenPool (snd (startCell c w)) = S (_tokenPool w)
  /\ _tokens (snd (startCell c w))
     = <[ c := _tokenPool w ]> (_tokens (cancelCellExecution c w))
  /\ cancelled (snd (startCell c w)) = cancelled (cancelCellExecution c w)
  /\ requests (snd (startCell c w)) = requests w.
Proof.
  unfold startCell, new_NotebookCellExecution. cbn.
  rewrite cancelCellExecution_pool, cancelCellExecution_requests. done.
Qed.

(** ** The invariant *)

Lemma wf_initial : wf initial.
Proof.
  split; cbn.
  - intros c tok H. rewrite lookup_empty in H. discriminate.
  - intros c c' tok H. rewrite lookup_empty in H. discriminate.
  - intros tok H. set_solver.
Qed.


Lemma wf_cancel e w : wf w -> wf (cancel e w).
Proof.
  intros Hwf. destruct (_isLatest e w) eqn:E.
  - apply isLatest_true in E. destruct Hwf as [H1 H2 H3].
    split; rewrite ?cancel_tokens, ?cancel_pool, ?cancel_cancelled;
      rewrite (proj2 (isLatest_true e w) E).
    + intros c tok H. apply lookup_delete_Some in H as [_ H]. eauto.
    + intros c c' tok H H'. apply lookup_delete_Some in H as [_ H].
      apply lookup_delete_Some in H' as [_ H']. eauto.
    + intros tok Hin. apply elem_of_union in Hin as [Hin|Hin].
      * apply elem_of_singleton in Hin as ->. split; [eauto|].
        intros c Hc. apply lookup_delete_Some in Hc as [Hne Hc].
        apply Hne. eauto.
      * destruct (H3 tok Hin) as [Hlt Hno]. split; [done|].
        intros c Hc. apply lookup_delete_Some in Hc as [_ Hc].
        exact (Hno c Hc).
  - unfold cancel. rewrite E. done.
Qed.

Lemma wf_cancelCellExecution c w : wf w -> wf (cancelCellExecution c w).
Proof.
  unfold cancelCellExecution. destruct (_cellExecutions w !! c); [|done].
  apply wf_cancel.
Qed.

Lemma wf_startCell c w : wf w -> wf (snd (startCell c w)).
Proof.
  intros Hwf. apply (wf_cancelCellExecution c) in Hwf.
  destruct (startCell_statics c w) as (_ & _ & Hp & Ht & Hc & _).
  destruct Hwf as [H1 H2 H3].
  rewrite cancelCellExecution_pool in H1, H3.
  split; rewrite ?Hp, ?Ht, ?Hc.
  - intros c' tok H. apply lookup_insert_Some in H as [[_ <-]|[_ H]].
    + lia.
    + apply H1 in H. lia.
  - intros c1 c2 tok Ha Hb.
    apply lookup_insert_Some in Ha as [[<- <-]|[Hne Ha]];
      apply lookup_insert_Some in Hb as [[<- Hb]|[Hne' Hb]]; try done.
    + apply H1 in Hb. lia.
    + subst tok. apply H1 in Ha. lia.
    + eauto.
  - intros tok Hin. destruct (H3 tok Hin) as [Hlt Hno]. split; [lia|].
    intros c' Hc'. apply lookup_insert_Some in Hc' as [[_ <-]|[_ Hc']].
    + lia.
    + exact (Hno c' Hc').
Qed.



(** ** Monotonicity *)

Lemma pool_applyOp w op : _tokenPool w <= _tokenPool (applyOp w op).
Proof.
  destruct op as [e|e outs message|e err|c|c outs|d]; cbn [applyOp].
  - by rewrite cancel_pool.
  - by rewrite (proj1 (proj2 (resolve_statics e outs message w))).
  - by rewrite (proj1 (proj2 (reject_statics e err w))).
  - destruct (startCell_statics c w) as (_ & _ & -> & _). lia.
  - match goal with |- _ <= _tokenPool (onDidChangeCellOutputs c ?w0) =>
      rewrite (proj1 (proj2 (onDidChangeCellOutputs_statics c w0)))
    end. done.
  - done.
Qed.


Lemma requests_applyOp w op : requests (applyOp w op) = requests w.
Proof.
  destruct op as [e|e outs message|e err|c|c outs|d]; cbn [applyOp].
  - apply cancel_requests.
  - apply resolve_statics.
  - apply reject_statics.
  - apply startCell_statics.
  - match goal with |- requests (onDidChangeCellOutputs c ?w0) = _ =>
      rewrite (proj2 (proj2 (proj2 (onDidChangeCellOutputs_statics c w0))))
    end. done.
  - done.
Qed.

Lemma requests_applyOps ops : forall w, requests (applyOps ops w) = requests w.
Proof.
  induction ops as [|op ops IH]; intros w; [done|].
  cbn. rewrite IH. apply requests_applyOp.
Qed.

Lemma cancelled_cancel e' w tok : tok ∈ cancelled w -> tok ∈ cancelled (cancel e' w).
Proof.
  rewrite cancel_cancelled. destruct (_isLatest e' w); set_solver.
Qed.

Lemma cancelled_applyOp w op tok :
  tok ∈ cancelled w -> tok ∈ cancelled (applyOp w op).
Proof.
  intros H. destruct op as [e|e outs message|e err|c|c outs|d]; cbn [applyOp].
  - by apply cancelled_cancel.
  - by rewrite (proj1 (proj2 (proj2 (resolve_statics e outs message w)))).
  - by rewrite (proj1 (proj2 (proj2 (reject_statics e err w)))).
  - destruct (startCell_statics c w) as (_ & _ & _ & _ & -> & _).
    unfold cancelCellExecution. destruct (_cellExecutions w !! c); [|done].
    by apply cancelled_cancel.
  - match goal with |- _ ∈ cancelled (onDidChangeCellOutputs c ?w0) =>
      rewrite (proj1 (proj2 (proj2 (onDidChangeCellOutputs_statics c w0))))
    end. done.
  - done.
Qed.

Lemma cancelled_applyOps ops : forall w tok,
  tok ∈ cancelled w -> tok ∈ cancelled (applyOps ops w).
Proof.
  induction ops as [|op ops IH]; intros w tok H; [done|].
  apply IH, cancelled_applyOp, H.
Qed.

(** ** Stale executions *)

Lemma stale_cancel e e' w :
  _isLatest e w = false -> _isLatest e (cancel e' w) = false.
Proof.
  rewrite !isLatest_false, cancel_tokens. intros H.
  destruct (_isLatest e' w); [|done].
  intros Hd. apply lookup_delete_Some in Hd as [_ Hd]. done.
Qed.

Lemma stale_applyOp e w op :
  _token e < _tokenPool w -> _isLatest e w = false ->
  _isLatest e (applyOp w op) = false.
Proof.
  intros Hlt H. destruct op as [e'|e' outs message|e' err|c|c outs|d];
    cbn [applyOp].
  - by apply stale_cancel.
  - apply isLatest_false. rewrite (proj1 (resolve_statics e' outs message w)).
    by apply isLatest_false.
  - apply isLatest_false. rewrite (proj1 (reject_statics e' err w)).
    by apply isLatest_false.
  - apply isLatest_false.
    destruct (startCell_statics c w) as (_ & _ & _ & -> & _).
    intros Hl. apply lookup_insert_Some in Hl as [[_ Hl]|[_ Hl]]; [lia|].
    assert (_isLatest e (cancelCellExecution c w) = false) as Hs.
    { unfold cancelCellExecution. destruct (_cellExecutions w !! c); [|done].
      by apply stale_cancel. }
    apply isLatest_false in Hs. done.
  - apply isLatest_false.
    match goal with |- _tokens (onDidChangeCellOutputs c ?w0) !! _ <> _ =>
      rewrite (proj1 (onDidChangeCellOutputs_statics c w0))
    end. by apply isLatest_false.
  - done.
Qed.

Lemma stale_applyOps e ops : forall w,
  _token e < _tokenPool w -> _isLatest e w = false ->
  _isLatest e (applyOps ops w) = false.
Proof.
  induction ops as [|op ops IH]; intros w Hlt H; [done|].
  apply IH.
  - pose proof (pool_applyOp w op). lia.
  - by apply stale_applyOp.
Qed.


Lemma resolve_stale e outs message w :
  _isLatest e w = false -> resolve e outs message w = w.
Proof. unfold resolve. by intros ->. Qed.

Lemma reject_stale e err w : _isLatest e w = false -> reject e err w = w.
Proof. unfold reject. by intros ->. Qed.

(** ** Generations *)

(** C6.  A run commits (by [resolve] or [reject]) only while the token it
    drew at its start is the current one of its cell; tokens come from a
    pool that never decreases, so a new run of a cell draws a token above
    every token drawn before; and once a run has been cancelled, or a
    newer run of its cell has started, neither [resolve] nor [reject] of
    that run changes anything, whatever happens in between. *)
Theorem stale_run_never_commits (w : World) (e : NotebookCellExecution) :
  wf w -> _token e < _tokenPool w ->
  (forall outs message err,
     _isLatest e w = false ->
     resolve e outs message w = w /\ reject e err w = w)
  /\ (forall c,
        (forall c' tok,
           _tokens w !! c' = Some tok -> tok < _token (fst (startCell c w)))
        /\ _token e < _token (fst (startCell c w))
        /\ _tokens (snd (startCell c w)) !! c = Some (_token (fst (startCell c w)))
        /\ _tokenPool w < _tokenPool (snd (startCell c w)))
  /\ (forall op, _tokenPool w <= _tokenPool (applyOp w op))
  /\ (forall w',
        w' = cancel e w \/ w' = snd (startCell (cell e) w) ->
        forall ops outs message err,
          resolve e outs message (applyOps ops w') = applyOps ops w'
          /\ reject e err (applyOps ops w') = applyOps ops w').
Proof.
  intros Hwf Hlt. split; [|split; [|split]].
  - intros outs message err Hs. split.
    + by apply resolve_stale.
    + by apply reject_stale.
  - intros c. destruct (startCell_statics c w) as (-> & _ & -> & -> & _).
    repeat split.
    + intros c' tok H. exact (wf_drawn w Hwf c' tok H).
    + exact Hlt.
    + apply lookup_insert_eq.
    + lia.
  - intros op. apply pool_applyOp.
  - intros w' Hw' ops outs message err.
    assert (Hs : _isLatest e (applyOps ops w') = false).
    { apply stale_applyOps.
      - destruct Hw' as [->| ->].
        + by rewrite cancel_pool.
        + destruct (startCell_statics (cell e) w) as (_ & _ & -> & _). lia.
      - destruct Hw' as [->| ->]; apply isLatest_false.
        + rewrite cancel_tokens. destruct (_isLatest e w) eqn:E.
          * rewrite lookup_delete_eq. discriminate.
          * by apply isLatest_false.
        + destruct (startCell_statics (cell e) w) as (_ & _ & _ & -> & _).
          rewrite lookup_insert_eq. intros [= E]. lia. }
    split.
    + by apply resolve_stale.
    + by apply reject_stale.
Qed.

(** The first run of cell 7. *)
Definition run1 : NotebookCellExecution := fst (startCell 7 initial).

Definition started1 : World := snd (startCell 7 initial).

Lemma stale_run_never_commits_witness :
  wf started1
  /\ _token run1 < _tokenPool started1
  /\ resolve run1 [] None (applyOps [CallExecuteCell 7] (cancel run1 started1))
     = applyOps [CallExecuteCell 7] (cancel run1 started1).
Proof.
  assert (H1 : wf started1) by apply wf_startCell, wf_initial.
  assert (H2 : _token run1 < _tokenPool started1) by (vm_compute; lia).
  split; [exact H1|]. split; [exact H2|].
  destruct (stale_run_never_commits started1 run1 H1 H2) as (_ & _ & _ & H).
  apply (H _ (or_introl eq_refl) [CallExecuteCell 7] [] None (ThrownValue None)).
Defined.

(** ** Traces of a run *)

Definition turn_ops (t : Turn) : list ExtOp :=
  match t with
  | LibTurn during _ | SearchTurn during _ => during
  end.

(** The items a turn delivers. *)
Definition turn_items (t : Turn) : list Item :=
  match t with
  | SearchTurn _ (Response items _) => items
  | _ => []
  end.

(** The concatenation of the items of the responses, in order. *)
Definition responses (used : list Turn) : list Item :=
  flat_map turn_items used.

(** The turn is a response with a total count above 1000. *)
Definition reports_over_1000 (t : Turn) : bool :=
  match t with
  | SearchTurn _ (Response _ total_count) => (1000 <? total_count)%Z
  | _ => false
  end.

(** What the turn throws, if it does. *)
Definition failure_of (t : Turn) : option Thrown :=
  match t with
  | LibTurn _ failure => failure
  | SearchTurn _ (Failure err) => Some err
  | SearchTurn _ (Response _ _) => None
  end.

(** Nothing else runs during the turns. *)
Definition quiet (script : list Turn) : Prop :=
  Forall (fun t => turn_ops t = []) script.

Definition request_of (qd : QueryData) (p : nat) : Request :=
  {| req_q := q qd; req_sort := sort qd; req_order := order qd;
     per_page := 100; page := p |}.

(** The world after the given search turns of one sub-query, the first
    of which asks for page [p]. *)
Fixpoint after (qd : QueryData) (p : nat) (used : list Turn) (w : World) : World :=
  match used with
  | [] => w
  | t :: used' => after qd (p + 1) used' (applyOps (turn_ops t) (issue qd p w))
  end.

Lemma after_app qd used1 : forall p used2 w,
  after qd p (used1 ++ used2) w
  = after qd (p + length used1) used2 (after qd p used1 w).
Proof.
  induction used1 as [|t used1 IH]; intros p used2 w; simpl.
  - by rewrite Nat.add_0_r.
  - rewrite IH. f_equal. lia.
Qed.

Lemma after_requests qd used : forall p w,
  requests (after qd p used w)
  = requests w ++ imap (fun i _ => request_of qd (p + i)) used.
Proof.
  induction used as [|t used IH]; intros p w; simpl.
  - by rewrite app_nil_r.
  - rewrite IH, requests_applyOps. cbn. rewrite <- app_assoc. f_equal.
    simpl. rewrite Nat.add_0_r. f_equal.
    apply imap_ext. intros i x _. simpl. f_equal. lia.
Qed.

Lemma responses_app l1 l2 : responses (l1 ++ l2) = responses l1 ++ responses l2.
Proof. unfold responses. apply flat_map_app. Qed.

Lemma fetchPages_unfold e qd script p count items tl w :
  fetchPages e qd script p count items tl w =
  if isCancellationRequested e w then Some (Completed items tl, script, w)
  else
    match script with
    | SearchTurn during reply :: script' =>
        let w' := applyOps during (issue qd p w) in
        match reply with
        | Failure err => Some (Caught err, script', w')
        | Response its total_count =>
            let count' := (count + Z.of_nat (length its))%Z in
            if (Z.min 1000 total_count <=? count')%Z
            then Some (Completed (items ++ its)
                         (tl || (1000 <? total_count)%Z), script', w')
            else fetchPages e qd script' (p + 1) count' (items ++ its)
                   (tl || (1000 <? total_count)%Z) w'
        end
    | _ => None
    end.
Proof. destruct script; reflexivity. Qed.

Local Ltac conjs := repeat apply conj.

(** The loop of one sub-query, when it ends without a failure. *)
Lemma fetchPages_completed e qd script : forall p count items tl w items' tl' rest w',
  fetchPages e qd script p count items tl w = Some (Completed items' tl', rest, w') ->
  exists used,
    script = used ++ rest
    /\ w' = after qd p used w
    /\ items' = items ++ responses used
    /\ tl' = tl || existsb reports_over_1000 used
    /\ Forall (fun t => failure_of t = None) used
    /\ (forall pre t post,
          used = pre ++ t :: post ->
          isCancellationRequested e (after qd p pre w) = false
          /\ exists d its total,
               t = SearchTurn d (Response its total)
               /\ (post <> [] ->
                   (count + Z.of_nat (length (responses (pre ++ [t])))
                    < Z.min 1000 total)%Z))
    /\ (isCancellationRequested e w' = true
        \/ exists pre d its total,
             used = pre ++ [SearchTurn d (Response its total)]
             /\ (Z.min 1000 total
                 <= count + Z.of_nat (length (responses used)))%Z).
Proof.
  induction script as [|t script IH];
    intros p count items tl w items' tl' rest w' H;
    rewrite fetchPages_unfold in H;
    destruct (isCancellationRequested e w) eqn:Ec.
  1, 3: injection H as <- <- <- <-; exists []; simpl;
    rewrite app_nil_r, orb_false_r; conjs; auto;
    intros pre t0 post Hsplit; by destruct pre.
  - discriminate.
  - destruct t as [d f|d [its total|err]]; try discriminate.
    cbv zeta in H.
    destruct (Z.leb_spec (Z.min 1000 total) (count + Z.of_nat (length its)))
      as [Hstop|Hgo].
    + injection H as <- <- <- <-.
      exists [SearchTurn d (Response its total)]. simpl.
      rewrite !app_nil_r, orb_false_r. conjs; auto.
      * intros pre t0 post Hsplit.
        destruct pre as [|x pre]; [|by destruct pre].
        injection Hsplit as <- <-. split; [done|].
        exists d, its, total. split; [done|]. done.
      * right. exists [], d, its, total. split; [done|]. exact Hstop.
    + apply IH in H as (used & -> & -> & -> & -> & Hnf & Hpre & Hend).
      exists (SearchTurn d (Response its total) :: used). simpl.
      rewrite <- app_assoc, orb_assoc. conjs; auto.
      * intros pre t0 post Hsplit. destruct pre as [|x pre].
        -- injection Hsplit as <- <-. split; [done|].
           exists d, its, total. split; [done|]. intros _. simpl.
           rewrite app_nil_r. exact Hgo.
        -- injection Hsplit as <- Hsplit.
           destruct (Hpre pre t0 post Hsplit) as (Hc & d' & its' & total' & -> & Hlt).
           split; [exact Hc|]. exists d', its', total'. split; [done|].
           intros Hpost. specialize (Hlt Hpost). simpl.
           rewrite length_app. lia.
      * destruct Hend as [Hend|(pre & d' & its' & total' & -> & Hle)];
          [by left|right].
        exists (SearchTurn d (Response its total) :: pre), d', its', total'.
        split; [done|]. rewrite length_app. lia.
Qed.

(** How the outcome of the [try] block follows from the turns taken:
    without a failure the items are those of the responses, in order,
    and the flag says whether a response reported more than 1000; a
    failure is the last turn taken. *)
Definition explains (items : list Item) (tl : bool) (used : list Turn)
    (r : Fetched) : Prop :=
  match r with
  | Completed items' tl' =>
      items' = items ++ responses used
      /\ tl' = tl || existsb reports_over_1000 used
      /\ Forall (fun t => failure_of t = None) used
  | Caught err =>
      exists used' t,
        used = used' ++ [t]
        /\ failure_of t = Some err
        /\ Forall (fun t => failure_of t = None) used'
  end.




Lemma explains_cons_quiet items tl t used r :
  failure_of t = None -> turn_items t = [] -> reports_over_1000 t = false ->
  explains items tl used r -> explains items tl (t :: used) r.
Proof.
  intros Hf Hi Hr. destruct r as [items' tl'|err]; simpl.
  - intros (-> & -> & Hnf). unfold responses. simpl. rewrite Hi, Hr. simpl.
    conjs; auto.
  - intros (used' & t' & -> & Hf' & Hnf). exists (t :: used'), t'.
    conjs; auto.
Qed.

Lemma explains_app items tl used1 items1 tl1 used2 r :
  explains items tl used1 (Completed items1 tl1) ->
  explains items1 tl1 used2 r ->
  explains items tl (used1 ++ used2) r.
Proof.
  intros (-> & -> & Hnf1). destruct r as [items' tl'|err]; simpl.
  - intros (-> & -> & Hnf2).
    rewrite responses_app, existsb_app, app_assoc, orb_assoc.
    conjs; auto. apply Forall_app. done.
  - intros (used' & t & -> & Hf & Hnf2). exists (used1 ++ used'), t.
    rewrite app_assoc. conjs; auto. apply Forall_app. done.
Qed.


(** The loop of one sub-query, whatever its outcome. *)
Lemma fetchPages_trace e qd script : forall p count items tl w r rest w',
  fetchPages e qd script p count items tl w = Some (r, rest, w') ->
  exists used,
    script = used ++ rest
    /\ w' = after qd p used w
    /\ explains items tl used r.
Proof.
  induction script as [|t script IH]; intros p count items tl w r rest w' H;
    rewrite fetchPages_unfold in H;
    destruct (isCancellationRequested e w) eqn:Ec.
  1, 3: injection H as <- <- <-; exists []; simpl;
    rewrite app_nil_r, orb_false_r; conjs; auto.
  - discriminate.
  - destruct t as [d f|d [its total|err]]; try discriminate.
    + cbv zeta in H.
      destruct (Z.min 1000 total <=? count + Z.of_nat (length its))%Z.
      * injection H as <- <- <-.
        exists [SearchTurn d (Response its total)]. simpl.
        rewrite !app_nil_r, orb_false_r. conjs; auto.
      * apply IH in H as (used & -> & -> & Hex).
        exists (SearchTurn d (Response its total) :: used). conjs; auto.
        apply (explains_app items tl [SearchTurn d (Response its total)]
                 (items ++ its) (tl || (1000 <? total)%Z)); [|exact Hex].
        simpl. rewrite app_nil_r, orb_false_r. conjs; auto.
    + injection H as <- <- <-.
      exists [SearchTurn d (Failure err)]. conjs; auto.
      exists [], (SearchTurn d (Failure err)). conjs; auto.
Qed.



Lemma cellOf_with_cell c f w : cellOf (with_cell c f w) c = f (cellOf w c).
Proof. unfold cellOf at 1. cbn. by rewrite lookup_insert_eq. Qed.

Lemma resolve_latest_cell e outs message w :
  _isLatest e w = true ->
  cellOf (resolve e outs message w) (cell e)
  = {| metadata :=
         {| runState := Some Success;
            runStartTime := runStartTime (metadata (cellOf w (cell e)));
            lastRunDuration := Some (now w - _startTime e)%Z;
            statusMessage := message |};
       outputs := outs |}.
Proof. intros H. unfold resolve. rewrite H. apply cellOf_with_cell. Qed.


Lemma cancel_latest_cell e w :
  _isLatest e w = true ->
  cellOf (cancel e w) (cell e)
  = {| metadata :=
         {| runState := _originalRunState e;
            runStartTime := runStartTime (metadata (cellOf w (cell e)));
            lastRunDuration := lastRunDuration (metadata (cellOf w (cell e)));
            statusMessage := statusMessage (metadata (cellOf w (cell e))) |};
       outputs := outputs (cellOf w (cell e)) |}.
Proof.
  intros H. unfold cancel. rewrite H. cbv zeta.
  match goal with
  | |- cellOf (with_tokens _ _ ?w2) ?c = ?rhs => change (cellOf w2 c = rhs)
  end.
  by rewrite cellOf_with_cell.
Qed.

Lemma isLatest_resolve e outs message w :
  _isLatest e (resolve e outs message w) = _isLatest e w.
Proof. unfold _isLatest. by rewrite (proj1 (resolve_statics e outs message w)). Qed.


Lemma reports_over_1000_exists used :
  existsb reports_over_1000 used = true <->
  exists d its total,
    In (SearchTurn d (Response its total)) used /\ (1000 < total)%Z.
Proof.
  rewrite existsb_exists. split.
  - intros ([d f|d [its total|err]] & Hin & Hr); try discriminate.
    exists d, its, total. split; [done|]. by apply Z.ltb_lt.
  - intros (d & its & total & Hin & Hlt).
    exists (SearchTurn d (Response its total)). split; [done|].
    by apply Z.ltb_lt.
Qed.

Lemma no_failure_last used' t err :
  failure_of t = Some err ->
  ~ Forall (fun t => failure_of t = None) (used' ++ [t]).
Proof.
  intros Hf H. apply Forall_app in H as [_ H].
  apply Forall_cons in H as [H _]. congruence.
Qed.

(** ** The turns of a run, sub-query by sub-query *)

(** The requests of one sub-query that took [n] search turns. *)
Definition pages (qd : QueryData) (n : nat) : list Request :=
  map (fun i => request_of qd (1 + i)) (seq 0 n).

Lemma imap_pages qd (used : list Turn) :
  imap (fun i _ => request_of qd (1 + i)) used = pages qd (length used).
Proof.
  unfold pages.
  assert (G : forall (l : list Turn) (f : nat -> Request) k,
            imap (fun i _ => f (k + i)) l = map f (seq k (length l))).
  { induction l as [|x l IH]; intros f k; [done|].
    cbn [imap length seq map]. rewrite Nat.add_0_r. f_equal.
    rewrite <- IH. apply imap_ext. intros i y _. cbn. f_equal. lia. }
  exact (G used (fun i => request_of qd (1 + i)) 0).
Qed.

(** Where a run stands in the two loops of its [try] block: the
    sub-queries that have not started, the sub-query in progress with
    the page its next request asks for, and the world. *)
Record Position := {
  pending : list QueryData;
  current : option (QueryData * nat);
  world : World
}.

(** What a turn does to the position.  At the turn of [octokit.lib()]
    the next sub-query starts, at page 1; at a search turn the request
    for the page is issued and the page goes up by one.  In both, the
    callbacks of the turn run. *)
Definition take (s : Position) (t : Turn) : Position :=
  match t with
  | LibTurn during _ =>
      match pending s with
      | qd :: rest =>
          {| pending := rest; current := Some (qd, 1);
             world := applyOps during (world s) |}
      | [] =>
          {| pending := []; current := None;
             world := applyOps during (world s) |}
      end
  | SearchTurn during _ =>
      match current s with
      | Some (qd, p) =>
          {| pending := pending s; current := Some (qd, p + 1);
             world := applyOps during (issue qd p (world s)) |}
      | None =>
          {| pending := pending s; current := None;
             world := applyOps during (world s) |}
      end
  end.

(** The world after a run over [allQueryData], started in the world [w],
    has taken the turns [used]. *)
Definition replay (allQueryData : list QueryData) (used : list Turn) (w : World)
  : World :=
  world (fold_left take used
           {| pending := allQueryData; current := None; world := w |}).

(** The turns of one sub-query: the turn of [octokit.lib()], and the
    search turns of its loop. *)
Definition Segment : Type := Turn * list Turn.

Definition seg_turns (s : Segment) : list Turn := fst s :: snd s.

Definition flat (segs : list Segment) : list Turn := flat_map seg_turns segs.

(** The loop of the sub-query [qd], entered in the world [w] with the
    page [p] and the count [count], takes the search turns [used] by the
    rule of the loop: every turn is a search that is made while no
    cancellation is requested, and a turn is followed by another only
    when it is a response that leaves the count below
    [min(1000, total_count)]. *)
Definition paged (e : NotebookCellExecution) (qd : QueryData) (p : nat)
    (count : Z) (used : list Turn) (w : World) : Prop :=
  forall pre t post,
    used = pre ++ t :: post ->
    isCancellationRequested e (after qd p pre w) = false
    /\ exists d reply,
         t = SearchTurn d reply
         /\ (post <> [] ->
             exists its total,
               reply = Response its total
               /\ (count + Z.of_nat (length (responses (pre ++ [t])))
                   < Z.min 1000 total)%Z).

(** The loop has come to its end after the turns [used]: the
    cancellation is requested, or the last turn is a response with which
    the count has reached [min(1000, total_count)]. *)
Definition stopped (e : NotebookCellExecution) (qd : QueryData) (p : nat)
    (count : Z) (used : list Turn) (w : World) : Prop :=
  isCancellationRequested e (after qd p used w) = true
  \/ exists pre d its total,
       used = pre ++ [SearchTurn d (Response its total)]
       /\ (Z.min 1000 total
           <= count + Z.of_nat (length (responses used)))%Z.

Definition no_failure (used : list Turn) : Prop :=
  Forall (fun t => failure_of t = None) used.

(** The loop of one sub-query, whatever its outcome. *)
Lemma fetchPages_run e qd script : forall p count items tl w r rest w',
  fetchPages e qd script p count items tl w = Some (r, rest, w') ->
  exists used,
    script = used ++ rest
    /\ w' = after qd p used w
    /\ explains items tl used r
    /\ paged e qd p count used w
    /\ (no_failure used -> stopped e qd p count used w).
Proof.
  induction script as [|t script IH];
    intros p count items tl w r rest w' H;
    rewrite fetchPages_unfold in H;
    destruct (isCancellationRequested e w) eqn:Ec.
  1, 3: injection H as <- <- <-; exists []; simpl;
    rewrite app_nil_r, orb_false_r; conjs; auto;
    first [intros pre t0 post Hsplit; by destruct pre|intros _; by left].
  - discriminate.
  - destruct t as [d f|d [its total|err]]; try discriminate.
    + cbv zeta in H.
      destruct (Z.leb_spec (Z.min 1000 total) (count + Z.of_nat (length its)))
        as [Hstop|Hgo].
      * injection H as <- <- <-.
        exists [SearchTurn d (Response its total)]. simpl.
        rewrite !app_nil_r, orb_false_r. conjs; auto.
        -- intros pre t0 post Hsplit.
           destruct pre as [|x pre]; [|by destruct pre].
           injection Hsplit as <- <-. split; [done|].
           exists d, (Response its total). split; [done|]. done.
        -- intros _. right. exists [], d, its, total. split; [done|].
           unfold responses. simpl. rewrite app_nil_r. exact Hstop.
      * apply IH in H as (used & -> & -> & Hex & Hpre & Hend).
        exists (SearchTurn d (Response its total) :: used). conjs; auto.
        -- apply (explains_app items tl [SearchTurn d (Response its total)]
                    (items ++ its) (tl || (1000 <? total)%Z)); [|exact Hex].
           simpl. rewrite app_nil_r, orb_false_r. conjs; auto.
        -- intros pre t0 post Hsplit. destruct pre as [|x pre].
           ++ injection Hsplit as <- <-. split; [done|].
              exists d, (Response its total). split; [done|]. intros _.
              exists its, total. split; [done|]. unfold responses. simpl.
              rewrite app_nil_r. exact Hgo.
           ++ injection Hsplit as <- Hsplit.
              destruct (Hpre pre t0 post Hsplit) as (Hc & d' & reply' & -> & Hlt).
              split; [exact Hc|]. exists d', reply'. split; [done|].
              intros Hpost. destruct (Hlt Hpost) as (its' & total' & -> & Hlt').
              exists its', total'. split; [done|].
              change (responses ((SearchTurn d (Response its total) :: pre)
                                   ++ [SearchTurn d' (Response its' total')]))
                with (its ++ responses (pre ++ [SearchTurn d' (Response its' total')])).
              rewrite length_app. lia.
        -- intros Hnf. apply Forall_cons in Hnf as [_ Hnf].
           destruct (Hend Hnf) as [Hc|(pre & d' & its' & total' & -> & Hle)];
             [by left|right].
           exists (SearchTurn d (Response its total) :: pre), d', its', total'.
           split; [done|].
           change (responses (SearchTurn d (Response its total)
                                :: pre ++ [SearchTurn d' (Response its' total')]))
             with (its ++ responses (pre ++ [SearchTurn d' (Response its' total')])).
           rewrite length_app. lia.
    + injection H as <- <- <-.
      exists [SearchTurn d (Failure err)]. conjs; auto.
      * exists [], (SearchTurn d (Failure err)). conjs; auto.
      * intros pre t0 post Hsplit.
        destruct pre as [|x pre]; [|by destruct pre].
        injection Hsplit as <- <-. split; [done|].
        exists d, (Failure err). split; [done|]. done.
      * intros Hnf. apply Forall_cons in Hnf as [Hnf _]. discriminate.
Qed.

Definition start (qs : list QueryData) (cur : option (QueryData * nat))
    (w : World) : Position :=
  {| pending := qs; current := cur; world := w |}.

Lemma paged_searches e qd p count used w :
  paged e qd p count used w ->
  Forall (fun t => exists d reply, t = SearchTurn d reply) used.
Proof.
  intros H. apply List.Forall_forall. intros t Hin.
  apply in_split in Hin as (pre & post & ->).
  destruct (H pre t post eq_refl) as (_ & d & reply & -> & _). eauto.
Qed.

Lemma take_searches qs qd used : forall p w,
  Forall (fun t => exists d reply, t = SearchTurn d reply) used ->
  fold_left take used (start qs (Some (qd, p)) w)
  = start qs (Some (qd, p + length used)) (after qd p used w).
Proof.
  induction used as [|t used IH]; intros p w H; simpl.
  - by rewrite Nat.add_0_r.
  - apply Forall_cons in H as [(d & reply & ->) H]. cbn [take start current pending world].
    fold (start qs (Some (qd, p + 1)) (applyOps d (issue qd p w))).
    rewrite (IH _ _ H). cbn [turn_ops]. f_equal. f_equal. f_equal. lia.
Qed.

Lemma flat_cons s segs : flat (s :: segs) = fst s :: snd s ++ flat segs.
Proof. reflexivity. Qed.

(** The property of the turns of one sub-query, the [i]-th, that is
    entered in the world [w0] and followed by the turns [segs2]. *)
Definition sub_query (e : NotebookCellExecution) (qs : list QueryData)
    (i : nat) (s : Segment) (segs2 : list Segment) (w0 : World) : Prop :=
  exists qd d f,
    qs !! i = Some qd
    /\ fst s = LibTurn d f
    /\ (segs2 <> [] -> no_failure (seg_turns s))
    /\ match f with
       | Some _ => snd s = []
       | None =>
           paged e qd 1 0 (snd s) (applyOps d w0)
           /\ (no_failure (snd s) -> stopped e qd 1 0 (snd s) (applyOps d w0))
       end.

(** The whole [try] block, sub-query by sub-query. *)
Lemma fetchAll_run e qs : forall script items tl w cur r rest w',
  fetchAll e qs script items tl w = Some (r, rest, w') ->
  exists segs : list Segment,
    script = flat segs ++ rest
    /\ w' = world (fold_left take (flat segs) (start qs cur w))
    /\ explains items tl (flat segs) r
    /\ length segs <= length qs
    /\ (no_failure (flat segs) -> length segs = length qs)
    /\ requests w'
       = requests w
         ++ flat_map (fun x : QueryData * Segment =>
                        pages (fst x) (length (snd (snd x)))) (zip qs segs)
    /\ (forall segs1 s segs2,
          segs = segs1 ++ s :: segs2 ->
          sub_query e qs (length segs1) s segs2
            (world (fold_left take (flat segs1) (start qs cur w))))
    /\ (forall pre t post,
          flat segs = pre ++ t :: post ->
          isCancellationRequested e
            (world (fold_left take pre (start qs cur w))) = true ->
          exists d f, t = LibTurn d f).
Proof.
  induction qs as [|qd qs IH]; intros script items tl w cur r rest w' H;
    cbn [fetchAll] in H.
  - injection H as <- <- <-. exists []. simpl.
    rewrite app_nil_r, orb_false_r. conjs; auto.
    all: first [by rewrite app_nil_r
               |intros segs1 s segs2 Hs; by destruct segs1
               |intros pre t post Hs; by destruct pre].
  - destruct script as [|[d f|d reply] script]; try discriminate.
    destruct f as [err|].
    + injection H as <- <- <-. exists [(LibTurn d (Some err), [])].
      conjs; auto.
      * exists [], (LibTurn d (Some err)). conjs; auto.
      * simpl. lia.
      * intros Hnf. apply Forall_cons in Hnf as [Hnf _]. discriminate.
      * rewrite requests_applyOps. destruct qs; cbn; by rewrite app_nil_r.
      * intros segs1 s segs2 Hs.
        destruct segs1 as [|x segs1]; [|by destruct segs1].
        injection Hs as <- <-. exists qd, d, (Some err). conjs; auto. done.
      * intros pre t post Hs. destruct pre as [|x pre]; [|by destruct pre].
        injection Hs as <- _. eauto.
    + cbv zeta in H.
      destruct (fetchPages e qd script 1 0 items tl (applyOps d w))
        as [[[r1 s1] w1]|] eqn:Ep; [|discriminate].
      apply fetchPages_run in Ep as (used1 & -> & -> & Hex1 & Hpg & Hst).
      pose proof (paged_searches _ _ _ _ _ _ Hpg) as Hsr.
      assert (Hw1 : requests (after qd 1 used1 (applyOps d w))
                    = requests w ++ pages qd (length used1)).
      { by rewrite after_requests, requests_applyOps, imap_pages. }
      assert (Hseg : forall more,
                fold_left take (LibTurn d None :: used1 ++ more)
                  (start (qd :: qs) cur w)
                = fold_left take more
                    (start qs (Some (qd, 1 + length used1))
                       (after qd 1 used1 (applyOps d w)))).
      { intros more. cbn [fold_left take start pending world].
        rewrite fold_left_app.
        fold (start qs (Some (qd, 1)) (applyOps d w)).
        by rewrite (take_searches _ _ _ _ _ Hsr). }
      assert (Hcut : forall pre t post more,
                LibTurn d None :: used1 ++ more = pre ++ t :: post ->
                isCancellationRequested e
                  (world (fold_left take pre (start (qd :: qs) cur w))) = true ->
                (exists d' f', t = LibTurn d' f')
                \/ exists l, pre = LibTurn d None :: used1 ++ l
                             /\ more = l ++ t :: post).
      { intros pre t post more Hs Hc. destruct pre as [|x pre].
        - injection Hs as <- _. left. eauto.
        - injection Hs as <- Hs. right.
          apply app_eq_app in Hs as (l & [[-> Hl]|[-> Hl]]).
          + destruct l as [|y l].
            * exists []. rewrite !app_nil_r. split; [done|]. by rewrite Hl.
            * exfalso. injection Hl as <- _.
              destruct (Hpg pre t l eq_refl) as (Hnc & _).
              assert (Hpre : Forall (fun t => exists d reply, t = SearchTurn d reply) pre).
              { by apply Forall_app in Hsr as [Hsr _]. }
              cbn [fold_left take start pending world] in Hc.
              fold (start qs (Some (qd, 1)) (applyOps d w)) in Hc.
              rewrite (take_searches _ _ _ _ _ Hpre) in Hc. cbn in Hc. congruence.
          + exists l. done. }
      destruct r1 as [items1 tl1|err1].
      * apply (IH _ _ _ _ (Some (qd, 1 + length used1))) in H
          as (segs & -> & Hw & Hex & Hlen & Hall & Hreq & Hsegs & Hflat).
        exists ((LibTurn d None, used1) :: segs).
        rewrite flat_cons. cbn [fst snd]. conjs.
        -- simpl. by rewrite <- app_assoc.
        -- rewrite Hseg. exact Hw.
        -- apply explains_cons_quiet; auto.
           eapply explains_app; eauto.
        -- simpl. lia.
        -- intros Hnf. apply Forall_cons in Hnf as [_ Hnf].
           apply Forall_app in Hnf as [_ Hnf]. simpl. f_equal. by apply Hall.
        -- rewrite Hreq, Hw1. cbn. by rewrite <- app_assoc.
        -- intros segs1 s segs2 Hs. destruct segs1 as [|x segs1].
           ++ injection Hs as <- <-. exists qd, d, None. cbn [fst snd].
              conjs; auto. intros _. constructor; [done|].
              by destruct Hex1 as (_ & _ & Hnf).
           ++ injection Hs as <- Hs. rewrite flat_cons. cbn [fst snd].
              rewrite Hseg. exact (Hsegs _ _ _ Hs).
        -- intros pre t post Hs Hc.
           destruct (Hcut _ _ _ _ Hs Hc) as [Hl|(l & -> & Hl)]; [exact Hl|].
           rewrite Hseg in Hc. exact (Hflat _ _ _ Hl Hc).
      * injection H as <- <- <-. exists [(LibTurn d None, used1)].
        rewrite flat_cons. cbn [fst snd flat flat_map]. rewrite app_nil_r.
        conjs; auto.
        -- pose proof (Hseg []) as Hs0. rewrite app_nil_r in Hs0.
           by rewrite Hs0.
        -- apply explains_cons_quiet; auto.
        -- simpl. lia.
        -- intros Hnf. exfalso. apply Forall_cons in Hnf as [_ Hnf].
           destruct Hex1 as (used' & t & -> & Hf & _).
           exact (no_failure_last _ _ _ Hf Hnf).
        -- rewrite Hw1. destruct qs; cbn; by rewrite app_nil_r.
        -- intros segs1 s segs2 Hs.
           destruct segs1 as [|x segs1]; [|by destruct segs1].
           injection Hs as <- <-. exists qd, d, None. cbn [fst snd].
           conjs; auto. done.
        -- intros pre t post Hs Hc.
           rewrite <- (app_nil_r used1) in Hs.
           destruct (Hcut _ _ _ _ Hs Hc) as [Hl|(l & -> & Hl)]; [exact Hl|].
           by destruct l.
Qed.

(** The whole run, sub-query by sub-query: it resolves when no turn
    failed, and rejects with what the last turn threw otherwise. *)
Lemma doExecuteCell_run e qs script w rest w2 :
  _doExecuteCell e qs script w = Some (rest, w2) ->
  exists segs : list Segment,
    script = flat segs ++ rest
    /\ length segs <= length qs
    /\ requests w2
       = requests w
         ++ flat_map (fun x : QueryData * Segment =>
                        pages (fst x) (length (snd (snd x)))) (zip qs segs)
    /\ (forall segs1 s segs2,
          segs = segs1 ++ s :: segs2 ->
          sub_query e qs (length segs1) s segs2 (replay qs (flat segs1) w))
    /\ (forall pre t post,
          flat segs = pre ++ t :: post ->
          isCancellationRequested e (replay qs pre w) = true ->
          exists d f, t = LibTurn d f)
    /\ ((no_failure (flat segs)
         /\ length segs = length qs
         /\ w2 = resolve e
                   [Rich (rendered ∅ (sorted qs (responses (flat segs))))
                      (maxCount <?
                         length (rendered ∅ (sorted qs (responses (flat segs)))))%nat
                      (sorted qs (responses (flat segs)))]
                   (Some (statusLine
                            (length (rendered ∅ (sorted qs (responses (flat segs)))))
                            (existsb reports_over_1000 (flat segs))))
                   (replay qs (flat segs) w))
        \/ (exists used' t err,
              flat segs = used' ++ [t]
              /\ failure_of t = Some err
              /\ no_failure used'
              /\ w2 = reject e err (replay qs (flat segs) w))).
Proof.
  unfold _doExecuteCell. intros H.
  destruct (fetchAll e qs script [] false w) as [[[r s1] w1]|] eqn:Ef;
    [|discriminate].
  apply (fetchAll_run _ _ _ _ _ _ None) in Ef
    as (segs & -> & Hw & Hex & Hlen & Hall & Hreq & Hsegs & Hflat).
  change (w1 = replay qs (flat segs) w) in Hw.
  exists segs. destruct r as [items tl|err]; injection H as <- <-.
  - destruct Hex as (-> & -> & Hnf). conjs; auto.
    + by rewrite (proj2 (proj2 (proj2 (resolve_statics _ _ _ _)))).
    + left. rewrite <- Hw. conjs; auto.
  - destruct Hex as (used' & t & Hu & Hf & Hnf). conjs; auto.
    + by rewrite (proj2 (proj2 (proj2 (reject_statics _ _ _)))).
    + right. exists used', t, err. rewrite <- Hw. conjs; auto.
Qed.

(** ** What the turns keep *)






(** ** Sample data *)

(** A sub-query sorted by creation date. *)
Definition newest_first : QueryData :=
  {| q := "is:open"; sort := Some "created"; order := Some desc |}.

Definition item (u created : string) : Item :=
  {| url := u; html_url := u; repository_url := "https://api.github.com/repos/o/r";
     number := 1; title := u; comments := 0;
     created_at := created; updated_at := created |}.

Definition item_A : Item := item "A" "2023-01-01".
Definition item_B : Item := item "B" "2023-02-01".
Definition item_C : Item := item "C" "2023-01-15".

(** Two sub-queries, both sorted by creation date, newest first. *)
Definition both_newest_first : list QueryData :=
  [ {| q := "is:open"; sort := Some "created"; order := Some desc |};
    {| q := "is:closed"; sort := Some "created"; order := Some desc |} ].

(** ** Paging *)

Lemma digits_without_plus (d : Decimal.uint) :
  ~ In "+"%char (list_ascii_of_string (NilEmpty.string_of_uint d)).
Proof.
  induction d; simpl; [tauto|..]; intros [H|H]; try discriminate H; auto.
Qed.

(** The status line carries the mark [+] exactly when it is built with
    the flag set: neither the digits of the count nor the word that
    follows contain it. *)
Lemma statusLine_mark (count : nat) (tooLarge : bool) :
  In "+"%char (list_ascii_of_string (statusLine count tooLarge))
  <-> tooLarge = true.
Proof.
  unfold statusLine. rewrite !ProviderFacts.in_append. split.
  - intros [H|[H|H]].
    + exfalso. exact (digits_without_plus _ H).
    + by destruct tooLarge.
    + exfalso. simpl in H. repeat destruct H as [H|H]; discriminate H || done.
  - intros ->. right. left. simpl. auto.
Qed.

Lemma pages_per_page qd n r : In r (pages qd n) -> per_page r = 100.
Proof.
  unfold pages. intros H. apply in_map_iff in H as (i & <- & _). reflexivity.
Qed.

(** C4.  A run takes its turns sub-query by sub-query, in the order of
    the sub-queries: for each the turn of [octokit.lib()] and then the
    searches of its loop, which starts at page 1 with the count 0.  The
    requests of a sub-query are its pages 1, 2, 3, ..., each of 100
    items.  A search is made only while no cancellation is requested,
    and it is followed by another only when its response leaves the
    count of the items received below [min(1000, total_count)]; the
    loop of a sub-query that met no failure has ended because the
    cancellation is requested or because the count has reached that
    bound with the last response.  A run that met no failure has gone
    through all sub-queries and resolves with the status line that
    counts the rendered rows; the line carries the mark [+] exactly when
    some response of the run reported a total count above 1000. *)
Theorem paging_stops_at_cap (e : NotebookCellExecution)
    (allQueryData : list QueryData) (script rest : list Turn) (w w2 : World) :
  _doExecuteCell e allQueryData script w = Some (rest, w2) ->
  exists segs : list Segment,
    script = flat segs ++ rest
    /\ length segs <= length allQueryData
    /\ requests w2
       = requests w
         ++ flat_map (fun x : QueryData * Segment =>
                        pages (fst x) (length (snd (snd x))))
              (zip allQueryData segs)
    /\ (forall qd n r, In r (pages qd n) -> per_page r = 100)
    /\ (forall segs1 lib pgs segs2,
          segs = segs1 ++ (lib, pgs) :: segs2 ->
          exists qd d f,
            allQueryData !! length segs1 = Some qd
            /\ lib = LibTurn d f
            /\ (segs2 <> [] -> no_failure (lib :: pgs))
            /\ (f <> None -> pgs = [])
            /\ (f = None ->
                let w1 := applyOps d (replay allQueryData (flat segs1) w) in
                paged e qd 1 0 pgs w1
                /\ (no_failure pgs -> stopped e qd 1 0 pgs w1)))
    /\ (no_failure (flat segs) ->
        let allItems := sorted allQueryData (responses (flat segs)) in
        let rows := rendered ∅ allItems in
        let tooLarge := existsb reports_over_1000 (flat segs) in
        length segs = length allQueryData
        /\ w2 = resolve e [Rich rows (maxCount <? length rows)%nat allItems]
                  (Some (statusLine (length rows) tooLarge))
                  (replay allQueryData (flat segs) w)
        /\ (_isLatest e w2 = true ->
            statusMessage (metadata (cellOf w2 (cell e)))
            = Some (statusLine (length rows) tooLarge))
        /\ (tooLarge = true <->
            exists d its total,
              In (SearchTurn d (Response its total)) (flat segs)
              /\ (1000 < total)%Z))
    /\ (forall count tooLarge,
          In "+"%char (list_ascii_of_string (statusLine count tooLarge))
          <-> tooLarge = true).
Proof.
  intros H.
  apply doExecuteCell_run in H
    as (segs & Hs & Hlen & Hreq & Hsegs & _ & Hend).
  exists segs. conjs; auto.
  - apply pages_per_page.
  - intros segs1 lib pgs segs2 Hsplit.
    destruct (Hsegs _ _ _ Hsplit) as (qd & d & f & Hq & Hlib & Hnf & Hf).
    cbn [fst snd] in *. exists qd, d, f. conjs; auto.
    + intros Hsome. destruct f; [done|]. by destruct Hsome.
    + intros ->. exact Hf.
  - intros Hnf. cbv zeta.
    destruct Hend as [(_ & Hall & Hw2)|(used' & t & err & Hu & Hf & _ & _)].
    + conjs; auto.
      * intros Hl. rewrite Hw2 in Hl |- *. rewrite isLatest_resolve in Hl.
        by rewrite (resolve_latest_cell _ _ _ _ Hl).
      * apply reports_over_1000_exists.
      * apply reports_over_1000_exists.
    + exfalso. rewrite Hu in Hnf. exact (no_failure_last _ _ _ Hf Hnf).
  - apply statusLine_mark.
Qed.

(** A full page: 100 copies of one item, which carries the number of the
    page as its URL. *)
Definition page_of (k : nat) : list Item :=
  repeat (item (NilEmpty.string_of_uint (Nat.to_uint k)) "2023-01-01") 100.

(** A server that has 1200 matches serves full pages, as many as it is
    asked for; the script holds eleven of them. *)
Definition pages_of_1200 : list Turn :=
  LibTurn [] None
  :: map (fun k => SearchTurn [] (Response (page_of k) 1200)) (seq 1 11).

Definition capped_world : World :=
  snd (default ([], started1)
         (_doExecuteCell run1 [newest_first] pages_of_1200 started1)).

Lemma paging_stops_at_cap_witness :
  statusMessage (metadata (cellOf capped_world (cell run1)))
  = Some "10+ results"
  /\ requests capped_world = pages newest_first 10.
Proof.
  destruct (paging_stops_at_cap run1 [newest_first] pages_of_1200
              [SearchTurn [] (Response (page_of 11) 1200)] started1
              capped_world)
    as (segs & Hs & _ & _ & _ & _ & Hok & _).
  - vm_compute. reflexivity.
  - change pages_of_1200
      with ((LibTurn [] None
             :: map (fun k => SearchTurn [] (Response (page_of k) 1200)) (seq 1 10))
            ++ [SearchTurn [] (Response (page_of 11) 1200)]) in Hs.
    apply app_inv_tail in Hs.
    assert (Hnf : no_failure (flat segs)).
    { rewrite <- Hs. repeat constructor. }
    destruct (Hok Hnf) as (_ & _ & Hmsg & _). split.
    + rewrite Hmsg; [|vm_compute; reflexivity].
      rewrite <- Hs. vm_compute. reflexivity.
    + vm_compute. reflexivity.
Defined.

(** ** Cancellation and failure *)

Lemma isCancellationRequested_applyOps e ops w :
  isCancellationRequested e w = true ->
  isCancellationRequested e (applyOps ops w) = true.
Proof.
  unfold isCancellationRequested. rewrite !bool_decide_eq_true.
  apply cancelled_applyOps.
Qed.

(** Once the cancellation is seen, the [try] block issues no request. *)
Lemma fetchAll_cancelled e allQueryData : forall script items tl w r rest w',
  isCancellationRequested e w = true ->
  fetchAll e allQueryData script items tl w = Some (r, rest, w') ->
  requests w' = requests w /\ (quiet script -> w' = w).
Proof.
  induction allQueryData as [|qd qs IH]; intros script items tl w r rest w' Hc H;
    cbn [fetchAll] in H.
  - injection H as <- <- <-. done.
  - destruct script as [|[d f|d reply] script]; try discriminate.
    pose proof (isCancellationRequested_applyOps e d w Hc) as Hc'.
    assert (Hq : quiet (LibTurn d f :: script) -> d = [] /\ quiet script).
    { intros Hq. apply Forall_cons in Hq as [Hd Hq]. done. }
    destruct f as [err|].
    + injection H as <- <- <-. split; [apply requests_applyOps|].
      intros [-> _]%Hq. done.
    + cbv zeta in H. rewrite fetchPages_unfold, Hc' in H.
      apply IH in H as [Hr Hw]; [|exact Hc'].
      split; [by rewrite Hr, requests_applyOps|].
      intros [-> Hqs]%Hq. by apply Hw.
Qed.










(** ** The order of the merged items *)

(** The first sub-query fetches A and B, the second C and once more A. *)
Definition merge_script : list Turn :=
  [ LibTurn [] None; SearchTurn [] (Response [item_A; item_B] 2);
    LibTurn [] None; SearchTurn [] (Response [item_C; item_A] 2) ].

(** C1 (the code departs from the claim).  For two sub-queries with sort
    field [created] and order [desc] that fetch [A; B] and [C], the
    merged sequence is [A; C; B], oldest first, where the claim has
    [B; C; A]: the comparator of [created] orders by increasing date and
    its inversion is tied to the sort field being [asc], which it never
    is.  An item whose URL has been seen is left out of the rendered
    rows, the first occurrence is kept. *)
Theorem created_desc_merge_is_oldest_first :
  sorted both_newest_first ([item_A; item_B] ++ [item_C])
    = [item_A; item_C; item_B]
  /\ rendered ∅ (sorted both_newest_first ([item_A; item_B] ++ [item_C]))
     <> [item_B; item_C; item_A]
  /\ (forall w, executeCell 7 both_newest_first merge_script initial = Some ([], w) ->
      outputs (cellOf w 7)
      = [Rich [item_A; item_C; item_B] false
           [item_A; item_A; item_C; item_B]])
  /\ is_Some (executeCell 7 both_newest_first merge_script initial).
Proof.
  conjs.
  - vm_compute. reflexivity.
  - vm_compute. discriminate.
  - intros w H. vm_compute in H. injection H as <-. vm_compute. reflexivity.
  - vm_compute. eauto.
Qed.

(** ** Termination of the paging loop *)

(** The turn brings the loop forward: a response with at least one
    item, or a failure. *)
Definition progresses (t : Turn) : bool :=
  match t with
  | SearchTurn _ (Response (_ :: _) _) => true
  | SearchTurn _ (Failure _) => true
  | _ => false
  end.

Lemma fetchPages_progress e qd script : forall p count items tl w,
  (0 <= count < 1000)%Z ->
  Forall (fun t => progresses t = true) script ->
  (1000 - count <= Z.of_nat (length script))%Z ->
  exists r rest w',
    fetchPages e qd script p count items tl w = Some (r, rest, w')
    /\ (Z.of_nat (length script) <= Z.of_nat (length rest) + (1000 - count))%Z.
Proof.
  induction script as [|t script IH]; intros p count items tl w Hc Hp Hlen.
  - simpl in Hlen. lia.
  - rewrite fetchPages_unfold.
    destruct (isCancellationRequested e w); [eexists _, _, _; split; [done|lia]|].
    apply Forall_cons in Hp as [Ht Hp].
    destruct t as [d f|d [[|x its] total|err]]; try discriminate.
    + cbv zeta.
      destruct (Z.leb_spec (Z.min 1000 total)
                  (count + Z.of_nat (length (x :: its)))) as [Hstop|Hgo].
      * eexists _, _, _. split; [done|]. simpl length. lia.
      * simpl length in *.
        destruct (IH (p + 1) (count + Z.of_nat (S (length its)))%Z
                    (items ++ x :: its) (tl || (1000 <? total)%Z)
                    (applyOps d (issue qd p w)))
          as (r & rest & w' & -> & Hle); [lia|done|lia|].
        eexists _, _, _. split; [done|]. lia.
    + eexists _, _, _. split; [done|]. simpl length. lia.
Qed.

(** When every response carries at least one item, the loop of a
    sub-query ends after at most 1000 requests. *)
Theorem fetchPages_ends_within_1000 (e : NotebookCellExecution) (qd : QueryData)
    (script : list Turn) (items : list Item) (tl : bool) (w : World) :
  Forall (fun t => progresses t = true) script ->
  1000 <= length script ->
  exists r rest w',
    fetchPages e qd script 1 0 items tl w = Some (r, rest, w')
    /\ length script - length rest <= 1000.
Proof.
  intros Hp Hlen.
  destruct (fetchPages_progress e qd script 1 0 items tl w)
    as (r & rest & w' & H & Hle); [lia|done|lia|].
  exists r, rest, w'. split; [done|]. lia.
Qed.

(** A server that reports far more items than it delivers, one item a
    page. *)
Definition one_a_page : list Turn :=
  repeat (SearchTurn [] (Response [item_A] 5000)) 1000.

Lemma fetchPages_ends_within_1000_witness :
  exists r rest w',
    fetchPages run1 newest_first one_a_page 1 0 [] false started1
      = Some (r, rest, w')
    /\ length one_a_page - length rest <= 1000.
Proof.
  apply (fetchPages_ends_within_1000 run1 newest_first one_a_page [] false started1).
  - apply Forall_forall. intros t Ht. apply list_elem_of_In in Ht.
    apply repeat_spec in Ht. by subst t.
  - unfold one_a_page. rewrite repeat_length. lia.
Defined.

(** With empty pages and a positive total the loop has no end of its
    own: whatever the number of empty responses, it asks for one page
    more. *)
Theorem fetchPages_starves (e : NotebookCellExecution) (qd : QueryData)
    (n : nat) (total : Z) (count : Z) :
  (count < Z.min 1000 total)%Z ->
  forall p items tl w,
    isCancellationRequested e w = false ->
    fetchPages e qd (repeat (SearchTurn [] (Response [] total)) n)
      p count items tl w = None.
Proof.
  intros Hc. induction n as [|n IH]; intros p items tl w Hw;
    rewrite fetchPages_unfold, Hw; [done|].
  cbn [repeat]. cbv zeta. cbn [length Z.of_nat]. rewrite Z.add_0_r.
  destruct (Z.leb_spec (Z.min 1000 total) count); [lia|].
  apply IH. exact Hw.
Qed.

Lemma fetchPages_starves_witness :
  fetchPages run1 newest_first (repeat (SearchTurn [] (Response [] 1)) 50)
    1 0 [] false started1 = None.
Proof.
  apply (fetchPages_starves run1 newest_first 50 1 0).
  - vm_compute. reflexivity.
  - vm_compute. reflexivity.
Defined.

Lemma responses_at_least (k : nat) (used : list Turn) :
  Forall (fun t => exists d its total,
            t = SearchTurn d (Response its total) /\ k <= length its) used ->
  k * length used <= length (responses used).
Proof.
  induction 1 as [|t used (d & its & total & -> & Hk) _ IH]; simpl; [lia|].
  rewrite length_app. lia.
Qed.

(** With full pages, that is when every response carries 100 items, a
    sub-query makes at most ten requests. *)
Theorem full_pages_at_most_ten_requests (e : NotebookCellExecution)
    (qd : QueryData) (script : list Turn) (items : list Item) (tl : bool)
    (w : World) (items' : list Item) (tl' : bool) (rest : list Turn) (w' : World) :
  fetchPages e qd script 1 0 items tl w = Some (Completed items' tl', rest, w') ->
  (forall d its total,
     In (SearchTurn d (Response its total)) script -> 100 <= length its) ->
  length (requests w') <= length (requests w) + 10.
Proof.
  intros H Hfull.
  apply fetchPages_completed in H as (used & -> & -> & _ & _ & _ & Hpre & _).
  rewrite after_requests, length_app, length_imap.
  assert (length used <= 10); [|lia].
  destruct used as [|u0 used0] using rev_ind; [simpl; lia|].
  clear IHused0. rewrite length_app. simpl.
  destruct used0 as [|t pre] using rev_ind; [simpl; lia|].
  clear IHpre.
  destruct (Hpre pre t [u0]) as (_ & d & its & total & -> & Hlt).
  { by rewrite <- app_assoc. }
  specialize (Hlt ltac:(discriminate)).
  assert (Hk : 100 * length (pre ++ [SearchTurn d (Response its total)])
               <= length (responses (pre ++ [SearchTurn d (Response its total)]))).
  { apply responses_at_least. apply Forall_forall. intros x Hx.
    apply list_elem_of_In, in_split in Hx as (l1 & l2 & Hx).
    destruct (Hpre l1 x (l2 ++ [u0])) as (_ & d' & its' & total' & -> & _).
    { rewrite Hx, <- !app_assoc. done. }
    exists d', its', total'. split; [done|].
    apply (Hfull d' its' total'). apply in_or_app. left.
    apply in_or_app. left. rewrite Hx. apply in_or_app. right. by left. }
  rewrite length_app in *. simpl in *. lia.
Qed.

Definition full_page : list Item := repeat item_A 100.

Lemma full_pages_at_most_ten_requests_witness :
  length (requests (after newest_first 1
                      [SearchTurn [] (Response full_page 100)] started1))
  <= length (requests started1) + 10.
Proof.
  apply (full_pages_at_most_ten_requests run1 newest_first
           [SearchTurn [] (Response full_page 100)] [] false started1
           full_page false []).
  - vm_compute. reflexivity.
  - intros d its total [[= <- <- <-]|[]]. vm_compute. lia.
Defined.

(** ** Runs that nothing disturbs *)

(** The comparator chosen for the sub-queries, if there is one, answers
    a number for every two of the items.  For the comparators of dates
    this says that the time stamps of the items have a shape that
    [Date_parse] reads; on such items the model of the sort step is what
    the host computes. *)
Definition comparable (allQueryData : list QueryData) (allItems : list Item)
  : Prop :=
  forall c a b,
    comparator allQueryData = Some c -> In a allItems -> In b allItems ->
    c a b <> NaN.

(** [Date_parse] reads the string. *)
Definition reads (s : string) : bool :=
  match Date_parse s with
  | Num _ => true
  | NaN => false
  end.

Lemma comparable_when_read (allQueryData : list QueryData) (allItems : list Item) :
  forallb (fun x => reads (created_at x) && reads (updated_at x)) allItems = true ->
  comparable allQueryData allItems.
Proof.
  intros H c a b Hc Ha Hb. rewrite forallb_forall in H.
  pose proof (H a Ha) as [Ha1 Ha2]%andb_true_iff.
  pose proof (H b Hb) as [Hb1 Hb2]%andb_true_iff.
  unfold reads in *.
  destruct allQueryData as [|first rest]; [discriminate|].
  unfold comparator in Hc.
  destruct (_ && _); [|discriminate].
  destruct (sort first) as [k|]; [|discriminate].
  cbn -[String.eqb] in Hc.
  destruct (String.eqb "comments" k); [by injection Hc as <-|].
  destruct (String.eqb "created" k).
  { injection Hc as <-. unfold compareByCreated.
    by destruct (Date_parse (created_at a)), (Date_parse (created_at b)). }
  destruct (String.eqb "updated" k); [|discriminate].
  injection Hc as <-. unfold compareByUpdated.
  by destruct (Date_parse (updated_at a)), (Date_parse (updated_at b)).
Qed.

(** Time passes during the turns, and nothing else happens. *)
Definition only_clock (ops : list ExtOp) : Prop :=
  Forall (fun op => exists d, op = ClockAdvances d) ops.

Definition undisturbed (used : list Turn) : Prop :=
  Forall (fun t => only_clock (turn_ops t)) used.

(** The time that passes during the turns. *)
Definition elapsed_ops (ops : list ExtOp) : Z :=
  foldr (fun op acc =>
           match op with
           | ClockAdvances d => (d + acc)%Z
           | _ => acc
           end) 0%Z ops.

Definition elapsed (used : list Turn) : Z :=
  foldr (fun t acc => (elapsed_ops (turn_ops t) + acc)%Z) 0%Z used.

Lemma applyOps_clock ops : forall w,
  only_clock ops ->
  _tokens (applyOps ops w) = _tokens w
  /\ cells (applyOps ops w) = cells w
  /\ now (applyOps ops w) = (now w + elapsed_ops ops)%Z.
Proof.
  induction ops as [|op ops IH]; intros w H.
  - cbn. conjs; auto. lia.
  - apply Forall_cons in H as [(d & ->) H].
    change (applyOps (ClockAdvances d :: ops) w)
      with (applyOps ops (with_now (now w + d)%Z w)).
    destruct (IH (with_now (now w + d)%Z w) H) as (-> & -> & ->).
    change (elapsed_ops (ClockAdvances d :: ops)) with (d + elapsed_ops ops)%Z.
    cbn [with_now _tokens cells now]. conjs; auto. lia.
Qed.

Lemma take_clock s t :
  only_clock (turn_ops t) ->
  _tokens (world (take s t)) = _tokens (world s)
  /\ cells (world (take s t)) = cells (world s)
  /\ now (world (take s t)) = (now (world s) + elapsed_ops (turn_ops t))%Z.
Proof.
  destruct t as [d f|d reply]; cbn [take turn_ops]; intros H.
  - destruct (pending s); cbn [world]; by apply applyOps_clock.
  - destruct (current s) as [[qd p]|]; cbn [world].
    + destruct (applyOps_clock d (issue qd p (world s)) H) as (-> & -> & ->).
      done.
    + by apply applyOps_clock.
Qed.

Lemma fold_take_clock used : forall s,
  undisturbed used ->
  _tokens (world (fold_left take used s)) = _tokens (world s)
  /\ cells (world (fold_left take used s)) = cells (world s)
  /\ now (world (fold_left take used s)) = (now (world s) + elapsed used)%Z.
Proof.
  induction used as [|t used IH]; intros s H; cbn [fold_left].
  - cbn. conjs; auto. lia.
  - apply Forall_cons in H as [Ht H].
    destruct (IH (take s t) H) as (-> & -> & ->).
    destruct (take_clock s t Ht) as (-> & -> & ->).
    change (elapsed (t :: used)) with (elapsed_ops (turn_ops t) + elapsed used)%Z.
    conjs; auto. lia.
Qed.

(** A run that met no failure and is the latest of its cell when it ends
    puts the cell into the state [Success]: the duration is the time
    since the execution was created, the status line counts the rendered
    rows, and the output holds the fetched items after the sort step and
    the rows without repeated URLs.  When the run is the latest at its
    start and nothing but the passing of time happens during its turns,
    it is the latest at its end, the time that has passed is that of the
    turns, and no other cell is touched.  The statement is for fetched
    items that are [comparable], on which the model of the sort step is
    what the host computes. *)
Theorem undisturbed_run_succeeds (e : NotebookCellExecution)
    (allQueryData : list QueryData) (script used rest : list Turn) (w w' : World) :
  _doExecuteCell e allQueryData script w = Some (rest, w') ->
  script = used ++ rest ->
  no_failure used ->
  comparable allQueryData (responses used) ->
  let allItems := sorted allQueryData (responses used) in
  let rows := rendered ∅ allItems in
  (_isLatest e w' = true ->
   runState (metadata (cellOf w' (cell e))) = Some Success
   /\ lastRunDuration (metadata (cellOf w' (cell e)))
      = Some (now w' - _startTime e)%Z
   /\ statusMessage (metadata (cellOf w' (cell e)))
      = Some (statusLine (length rows) (existsb reports_over_1000 used))
   /\ outputs (cellOf w' (cell e))
      = [Rich rows (maxCount <? length rows)%nat allItems])
  /\ (_isLatest e w = true -> undisturbed used ->
      _isLatest e w' = true
      /\ now w' = (now w + elapsed used)%Z
      /\ runStartTime (metadata (cellOf w' (cell e)))
         = runStartTime (metadata (cellOf w (cell e)))
      /\ (forall c, c <> cell e -> cellOf w' c = cellOf w c)).
Proof.
  intros Hrun -> Hnf _. cbv zeta.
  apply doExecuteCell_run in Hrun as (segs & Heq & _ & _ & _ & _ & Hend).
  apply app_inv_tail in Heq. rewrite <- Heq in Hend.
  destruct Hend as [(_ & _ & Hw')|(used' & t & err & Hu & Hf & _ & _)].
  2: { exfalso. rewrite Hu in Hnf. exact (no_failure_last _ _ _ Hf Hnf). }
  set (w1 := replay allQueryData used w) in *.
  assert (Hnow : now w' = now w1).
  { rewrite Hw'. unfold resolve. by destruct (_isLatest e w1). }
  split.
  - intros Hl. rewrite Hw' in Hl. rewrite isLatest_resolve in Hl.
    rewrite Hnow, Hw', (resolve_latest_cell _ _ _ _ Hl). done.
  - intros Hl Hu.
    destruct (fold_take_clock used (start allQueryData None w) Hu)
      as (Ht & Hc & Hn).
    change (world (fold_left take used (start allQueryData None w))) with w1
      in Ht, Hc, Hn.
    cbn [start world] in Ht, Hc, Hn.
    assert (Hl1 : _isLatest e w1 = true).
    { apply isLatest_true. rewrite Ht. by apply isLatest_true. }
    assert (Hcell : forall c, cellOf w1 c = cellOf w c).
    { intros c. unfold cellOf. by rewrite Hc. }
    conjs.
    + by rewrite Hw', isLatest_resolve.
    + by rewrite Hnow, Hn.
    + by rewrite Hw', (resolve_latest_cell _ _ _ _ Hl1), <- Hcell.
    + intros c Hne. rewrite Hw'. unfold resolve. rewrite Hl1.
      unfold cellOf at 1. cbn. rewrite lookup_insert_ne by done. apply Hcell.
Qed.

(** The two sub-queries of a cell fetch A, B and C, A while the clock
    advances by 40 and by 2 milliseconds. *)
Definition timed_script : list Turn :=
  [ LibTurn [] None;
    SearchTurn [ClockAdvances 40] (Response [item_A; item_B] 2);
    LibTurn [] None;
    SearchTurn [ClockAdvances 2] (Response [item_C; item_A] 2) ].

Definition timed_world : World :=
  snd (default ([], started1)
         (_doExecuteCell run1 both_newest_first timed_script started1)).

Lemma undisturbed_run_succeeds_witness :
  statusMessage (metadata (cellOf timed_world (cell run1))) = Some "3 results"
  /\ lastRunDuration (metadata (cellOf timed_world (cell run1))) = Some 42%Z.
Proof.
  destruct (undisturbed_run_succeeds run1 both_newest_first timed_script
              timed_script [] started1 timed_world) as [H _].
  - vm_compute. reflexivity.
  - reflexivity.
  - repeat constructor.
  - apply comparable_when_read. vm_compute. reflexivity.
  - destruct H as (_ & Hd & Hm & _); [vm_compute; reflexivity|].
    split; [rewrite Hm|rewrite Hd]; vm_compute; reflexivity.
Defined.

(** ** Running a cell again *)

Lemma startCell_cell c w :
  cellOf (snd (startCell c w)) c
  = {| metadata :=
         {| runState := Some Running;
            runStartTime := Some (now (cancelCellExecution c w));
            lastRunDuration :=
              lastRunDuration (metadata (cellOf (cancelCellExecution c w) c));
            statusMessage :=
              statusMessage (metadata (cellOf (cancelCellExecution c w) c)) |};
       outputs := outputs (cellOf (cancelCellExecution c w) c) |}.
Proof.
  unfold startCell, new_NotebookCellExecution. cbv zeta. cbn [snd].
  match goal with
  | |- cellOf (with_cellExecutions _ ?w2) ?c = ?rhs => change (cellOf w2 c = rhs)
  end.
  by rewrite cellOf_with_cell.
Qed.

Lemma startCell_original c w :
  _originalRunState (fst (startCell c w))
  = runState (metadata (cellOf (cancelCellExecution c w) c)).
Proof. reflexivity. Qed.

(** Starting a run of a cell cancels the registered execution of the
    cell even when that execution has already resolved: its token source
    is cancelled and the run state goes back to the state it captured.
    The new run captures that state, so cancelling the new run leaves the
    cell with the outputs of the earlier run and the run state from
    before the earlier run, not [Success]. *)
Theorem rerun_captures_earlier_state (w : World) (c : CellId)
    (e1 : NotebookCellExecution) (outs : list CellOutput) (message : option string) :
  _cellExecutions w !! c = Some e1 -> cell e1 = c -> _isLatest e1 w = true ->
  let w1 := resolve e1 outs message w in
  let e2 := fst (startCell c w1) in
  let w2 := snd (startCell c w1) in
  runState (metadata (cellOf w1 c)) = Some Success
  /\ isCancellationRequested e1 w2 = true
  /\ _originalRunState e2 = _originalRunState e1
  /\ runState (metadata (cellOf (cancel e2 w2) c)) = _originalRunState e1
  /\ outputs (cellOf (cancel e2 w2) c) = outs.
Proof.
  intros Hreg Hc Hl w1 e2 w2. subst c.
  assert (Hl1 : _isLatest e1 w1 = true) by (unfold w1; by rewrite isLatest_resolve).
  pose proof (resolve_latest_cell e1 outs message w Hl) as Hcell1.
  fold w1 in Hcell1.
  assert (Hreg1 : _cellExecutions w1 !! cell e1 = Some e1).
  { unfold w1, resolve. by destruct (_isLatest e1 w). }
  assert (Hcc : cancelCellExecution (cell e1) w1 = cancel e1 w1).
  { unfold cancelCellExecution. by rewrite Hreg1. }
  pose proof (cancel_latest_cell e1 w1 Hl1) as Hcell2.
  rewrite Hcell1 in Hcell2.
  cbn [metadata outputs lastRunDuration statusMessage runStartTime] in Hcell2.
  assert (He2 : _originalRunState e2 = _originalRunState e1).
  { unfold e2. rewrite startCell_original, Hcc, Hcell2. done. }
  assert (Hl2 : _isLatest e2 w2 = true).
  { apply isLatest_true. unfold e2, w2.
    destruct (startCell_statics (cell e1) w1) as (-> & -> & _ & -> & _).
    apply lookup_insert_eq. }
  assert (Hcelle2 : cell e2 = cell e1)
    by (unfold e2; apply (startCell_statics (cell e1) w1)).
  pose proof (startCell_cell (cell e1) w1) as Hw2.
  rewrite Hcc, Hcell2 in Hw2.
  cbn [metadata outputs lastRunDuration statusMessage] in Hw2.
  change (snd (startCell (cell e1) w1)) with w2 in Hw2.
  pose proof (cancel_latest_cell e2 w2 Hl2) as Hfin.
  rewrite Hcelle2, Hw2 in Hfin.
  cbn [metadata outputs lastRunDuration statusMessage runStartTime] in Hfin.
  split; [by rewrite Hcell1|]. split; [|split; [exact He2|]].
  - unfold isCancellationRequested. apply bool_decide_eq_true. unfold w2.
    destruct (startCell_statics (cell e1) w1) as (_ & _ & _ & _ & -> & _).
    rewrite Hcc, cancel_cancelled, Hl1.
    apply elem_of_union. left. by apply elem_of_singleton.
  - rewrite Hfin. cbn [metadata outputs runState]. by rewrite He2.
Qed.

Lemma rerun_captures_earlier_state_witness :
  runState
    (metadata
       (cellOf
          (cancel (fst (startCell 7 (resolve run1 [] (Some "0 results") started1)))
             (snd (startCell 7 (resolve run1 [] (Some "0 results") started1))))
          7))
  = None.
Proof.
  destruct (rerun_captures_earlier_state started1 7 run1 [] (Some "0 results"))
    as (_ & _ & _ & H & _).
  - vm_compute. reflexivity.
  - reflexivity.
  - vm_compute. reflexivity.
  - rewrite H. reflexivity.
Defined.

(** ** The order of the requests *)

(** The sub-queries are fetched one after the other, in their order:
    the requests of a run are, for each sub-query that was started, its
    pages 1, 2, 3, ..., each of 100 items, and all requests of a
    sub-query precede those of the next. *)
Theorem requests_are_sequential (e : NotebookCellExecution)
    (allQueryData : list QueryData) (script : list Turn) (items : list Item)
    (tl : bool) (w : World) (r : Fetched) (rest : list Turn) (w' : World) :
  fetchAll e allQueryData script items tl w = Some (r, rest, w') ->
  exists counts : list nat,
    length counts <= length allQueryData
    /\ requests w'
       = requests w
         ++ flat_map (fun x : QueryData * nat => pages (fst x) (snd x))
              (zip allQueryData counts).
Proof.
  revert script items tl w.
  induction allQueryData as [|qd qs IH]; intros script items tl w H;
    cbn [fetchAll] in H.
  - injection H as <- <- <-. exists []. split; [done|]. cbn.
    by rewrite app_nil_r.
  - destruct script as [|[d f|d reply] script]; try discriminate.
    destruct f as [err|].
    + injection H as <- <- <-. exists []. split; [simpl; lia|]. cbn.
      by rewrite app_nil_r, requests_applyOps.
    + cbv zeta in H.
      destruct (fetchPages e qd script 1 0 items tl (applyOps d w))
        as [[[r1 s1] w1]|] eqn:Ep; [|discriminate].
      apply fetchPages_trace in Ep as (used1 & -> & -> & _).
      assert (Hw1 : requests (after qd 1 used1 (applyOps d w))
                    = requests w ++ pages qd (length used1)).
      { by rewrite after_requests, requests_applyOps, imap_pages. }
      destruct r1 as [items1 tl1|err1].
      * apply IH in H as (counts & Hlen & Hreq).
        exists (length used1 :: counts). split; [simpl; lia|].
        rewrite Hreq, Hw1. cbn. by rewrite <- app_assoc.
      * injection H as <- <- <-. exists [length used1].
        split; [simpl; lia|]. rewrite Hw1. cbn.
        destruct qs; cbn; by rewrite app_nil_r.
Qed.

Lemma requests_are_sequential_witness :
  exists counts : list nat,
    length counts <= length both_newest_first
    /\ requests (snd (default (Completed [] false, [], started1)
                        (fetchAll run1 both_newest_first merge_script [] false
                           started1)))
       = requests started1
         ++ flat_map (fun x : QueryData * nat => pages (fst x) (snd x))
              (zip both_newest_first counts).
Proof.
  apply (requests_are_sequential run1 both_newest_first merge_script [] false
           started1
           (fst (fst (default (Completed [] false, [], started1)
                        (fetchAll run1 both_newest_first merge_script [] false
                           started1))))
           (snd (fst (default (Completed [] false, [], started1)
                        (fetchAll run1 both_newest_first merge_script [] false
                           started1))))).
  vm_compute. reflexivity.
Defined.

(** ** Outputs replaced by the host *)

(** When the host replaces the outputs of a cell by none, the listener
    of the provider shows the cell as [Idle] and clears its status
    message and duration; with some output it leaves the metadata as it
    is.  Neither cancels a run: which execution is the latest of a cell,
    and which token sources are cancelled, stays the same, so a run in
    flight still commits. *)
Theorem outputs_cleared_shows_idle (c : CellId) (outs : list CellOutput) (w : World) :
  let w' := applyOp w (HostSetsOutputs c outs) in
  outputs (cellOf w' c) = outs
  /\ (outs = [] ->
      runState (metadata (cellOf w' c)) = Some Idle
      /\ statusMessage (metadata (cellOf w' c)) = None
      /\ lastRunDuration (metadata (cellOf w' c)) = None)
  /\ (outs <> [] -> metadata (cellOf w' c) = metadata (cellOf w c))
  /\ (forall e, _isLatest e w' = _isLatest e w
                /\ isCancellationRequested e w' = isCancellationRequested e w).
Proof.
  cbv zeta. cbn [applyOp]. unfold onDidChangeCellOutputs.
  rewrite cellOf_with_cell. cbn [outputs].
  destruct outs as [|o outs]; cbn [length Nat.eqb].
  - rewrite !cellOf_with_cell. cbn. conjs; auto. done.
  - rewrite !cellOf_with_cell. cbn. conjs; auto; done.
Qed.

End KernelFacts.

(* ===================================================================== *)
(** * Properties of lock state and storage *)
(* ===================================================================== *)

Module NotebookFacts.
Import Kernel Notebook.

(** ** Locking and unlocking *)

(** [setCellLockState] sets [editable] to the negation of [locked] and
    leaves every other property as it is.  The [undo] of the event sets
    [editable] to [locked], whatever it was before the call: it brings
    the metadata back exactly when the call changed the lock state. *)
Theorem setCellLockState_undo (locked : bool) (metadata : gmap string JsValue) :
  let after := fst (setCellLockState locked metadata) in
  let event := snd (setCellLockState locked metadata) in
  after !! "editable" = Some (JBool (negb locked))
  /\ (forall p, p <> "editable" -> after !! p = metadata !! p)
  /\ undo event after = <[ "editable" := JBool locked ]> metadata
  /\ (undo event after = metadata <->
      metadata !! "editable" = Some (JBool locked))
  /\ redo event (undo event after) = after.
Proof.
  cbn. split; [apply lookup_insert_eq|]. split; [|split; [|split]].
  - intros p Hp. apply lookup_insert_ne. congruence.
  - apply insert_insert_eq.
  - rewrite insert_insert_eq. split.
    + intros <-. apply lookup_insert_eq.
    + apply insert_id.
  - by rewrite !insert_insert_eq.
Qed.

(** The [undo] of the event of [setDocumentLockState] is the same
    function as its [redo]: undoing a change of the document lock leaves
    the document as the change made it. *)
Theorem setDocumentLockState_undo_is_redo
    (locked : bool) (metadata : gmap string JsValue) :
  let after := fst (setDocumentLockState locked metadata) in
  let event := snd (setDocumentLockState locked metadata) in
  after !! "editable" = Some (JBool (negb locked))
  /\ after !! "cellEditable" = Some (JBool (negb locked))
  /\ (forall p, p <> "editable" -> p <> "cellEditable" ->
                after !! p = metadata !! p)
  /\ (forall m, undo event m = redo event m)
  /\ undo event after = after.
Proof.
  cbn. split; [|split; [|split; [|split]]].
  - rewrite lookup_insert_ne by discriminate. apply lookup_insert_eq.
  - apply lookup_insert_eq.
  - intros p H1 H2. rewrite !lookup_insert_ne; [done|congruence|congruence].
  - done.
  - apply map_eq. intros p.
    destruct (decide ("cellEditable" = p)) as [<-|H1];
      [by rewrite !lookup_insert_eq|].
    destruct (decide ("editable" = p)) as [<-|H2].
    + rewrite !(lookup_insert_ne _ "cellEditable") by discriminate.
      by rewrite !lookup_insert_eq.
    + by rewrite !lookup_insert_ne by assumption.
Qed.

(** ** Saving and opening *)

(** What opening a saved document gives: text, language and kind of each
    cell are those saved, in order; the lock state is the saved one, and
    a cell saved without lock state comes back editable; no output is
    brought back; every cell is runnable.  After one round of saving and
    opening, a further round changes nothing.  A file that cannot be
    read, or that does not hold JSON, opens as a notebook without
    cells. *)
Theorem save_then_open (cells : list OpenCell) :
  let opened := openNotebook (Some (_save cells)) in
  data_cells opened
  = map (fun cell =>
           {| source := open_text cell;
              language := open_language cell;
              cellKind := open_kind cell;
              data_outputs := [];
              data_editable := default true (open_editable cell);
              data_runnable := true |}) cells
  /\ length (data_cells opened) = length cells
  /\ shown (openNotebook (Some (_save (shown opened)))) = shown opened
  /\ data_cells (openNotebook None) = [].
Proof.
  cbv zeta. unfold openNotebook, _save, shown.
  cbn [data_cells from_option]. unfold id. split; [|split; [|split]].
  - rewrite List.map_map. reflexivity.
  - by rewrite !length_map.
  - rewrite !List.map_map. reflexivity.
  - reflexivity.
Qed.

End NotebookFacts.

(* ===================================================================== *)
(** * Properties of the run of a document *)
(* ===================================================================== *)

Module DocumentsFacts.
Import Provider Kernel Notebook Documents.

Lemma d_isLatest_true e dw :
  d_isLatest e dw = true <-> d_tokens dw !! document e = Some (d_token e).
Proof. unfold d_isLatest. apply bool_decide_eq_true. Qed.

Lemma docRunState_with d s dw :
  docRunState (with_docRunState d s dw) !! d = s.
Proof.
  destruct s; cbn; [apply lookup_insert_eq|apply lookup_delete_eq].
Qed.

(** What a cancellation does to an execution that is the latest of its
    document, with a live token source, while the cell [c] is its
    current cell. *)
Lemma doc_cancel_live e c dw :
  d_isLatest e dw = true ->
  d_token e ∉ d_cancelled dw -> d_token e ∉ d_disposed dw ->
  currentCell dw !! d_token e = Some c ->
  kernel (doc_cancel e dw) = cancelCellExecution c (kernel dw)
  /\ docRunState (doc_cancel e dw) !! document e = d_originalRunState e
  /\ d_isCancellationRequested e (doc_cancel e dw) = true
  /\ d_isLatest e (doc_cancel e dw) = false
  /\ d_disposed (doc_cancel e dw) = d_disposed dw
  /\ currentCell (doc_cancel e dw) = currentCell dw.
Proof.
  intros Hl Hc Hd Hcur. unfold doc_cancel, cts_cancel. rewrite Hl.
  rewrite (bool_decide_eq_false_2 _ Hc), (bool_decide_eq_false_2 _ Hd).
  unfold onCancellationRequested. cbn [currentCell with_docCancelled].
  rewrite Hcur. cbv zeta. cbn [kernel with_docTokens with_docRunState with_kernel
    with_docCancelled d_disposed currentCell].
  split; [done|]. split; [apply docRunState_with|]. split; [|split; [|done]].
  - unfold d_isCancellationRequested. apply bool_decide_eq_true. cbn.
    apply elem_of_union. left. by apply elem_of_singleton.
  - unfold d_isLatest. apply bool_decide_eq_false. cbn.
    rewrite lookup_delete_eq. discriminate.
Qed.

(** Cancelling the run of a document, while one of its cells runs,
    cancels the execution registered for that cell, puts the run state
    of the document back to the state captured at the start of the run
    and marks the token source; the [resolve] of the [finally] then does
    nothing, so the document is not set to [Idle]. *)
Theorem cancel_all_while_cell_runs (e : NotebookDocumentExecution) (c : CellId)
    (dw : DocWorld) :
  d_isLatest e dw = true ->
  d_token e ∉ d_cancelled dw -> d_token e ∉ d_disposed dw ->
  currentCell dw !! d_token e = Some c ->
  kernel (doc_cancel e dw) = cancelCellExecution c (kernel dw)
  /\ docRunState (doc_cancel e dw) !! document e = d_originalRunState e
  /\ d_isCancellationRequested e (doc_cancel e dw) = true
  /\ doc_resolve e (doc_cancel e dw) = doc_cancel e dw.
Proof.
  intros Hl Hc Hd Hcur.
  destruct (doc_cancel_live e c dw Hl Hc Hd Hcur) as (H1 & H2 & H3 & H4 & _).
  split; [done|]. split; [done|]. split; [done|].
  unfold doc_resolve. by rewrite H4.
Qed.

(** Cell 7 is the current cell of the first run of document 1. *)
Definition doc_run1 : NotebookDocumentExecution :=
  fst (startAll 1 (initial_over Kernel.initial)).

Definition doc_started1 : DocWorld :=
  let dw := snd (startAll 1 (initial_over Kernel.initial)) in
  with_kernel (snd (startCell 7 (kernel dw)))
    (with_currentCell (<[ d_token doc_run1 := 7 ]> (currentCell dw)) dw).

Lemma cancel_all_while_cell_runs_witness :
  docRunState (doc_cancel doc_run1 doc_started1) !! document doc_run1 = None
  /\ runState (metadata (cellOf (kernel (doc_cancel doc_run1 doc_started1)) 7))
     = None.
Proof.
  destruct (cancel_all_while_cell_runs doc_run1 7 doc_started1)
    as (H1 & H2 & _).
  - vm_compute. reflexivity.
  - change (d_token doc_run1 ∉ (∅ : gset nat)). apply not_elem_of_empty.
  - change (d_token doc_run1 ∉ (∅ : gset nat)). apply not_elem_of_empty.
  - vm_compute. reflexivity.
  - split.
    + rewrite H2. reflexivity.
    + rewrite H1. vm_compute. reflexivity.
Defined.


Lemma doExecuteCell_cancelled_requests e allQueryData script w rest w' :
  isCancellationRequested e w = true ->
  _doExecuteCell e allQueryData script w = Some (rest, w') ->
  requests w' = requests w.
Proof.
  intros Hc H. unfold _doExecuteCell in H.
  destruct (fetchAll e allQueryData script [] false w)
    as [[[r s1] w1]|] eqn:Ef; [|discriminate].
  destruct (KernelFacts.fetchAll_cancelled _ _ _ _ _ _ _ _ _ Hc Ef) as [Hr _].
  destruct r as [items tl|err]; injection H as <- <-.
  - by rewrite (proj2 (proj2 (proj2 (KernelFacts.resolve_statics _ _ _ _)))).
  - by rewrite (proj2 (proj2 (proj2 (KernelFacts.reject_statics _ _ _)))).
Qed.

Lemma startCell_registers c w :
  _cellExecutions (snd (startCell c w)) !! c = Some (fst (startCell c w))
  /\ _isLatest (fst (startCell c w)) (snd (startCell c w)) = true.
Proof.
  split.
  - unfold startCell, new_NotebookCellExecution. cbn. apply lookup_insert_eq.
  - apply KernelFacts.isLatest_true.
    destruct (KernelFacts.startCell_statics c w) as (-> & -> & _ & -> & _).
    apply lookup_insert_eq.
Qed.

(** When the command that cancels the run of the document arrives while
    a cell runs (at the first [await] of the run of that cell), that
    cell issues no search request, no later cell of the document is
    started, the run state of the document is the one captured at the
    start of the run, and the [resolve] of the [finally] changes
    nothing. *)
Theorem cancelled_run_starts_no_further_cell
    (e : NotebookDocumentExecution) (c : DocCell) (cells : list DocCell)
    (s : CellSchedule) (schedule : list CellSchedule) (dw dw' : DocWorld) :
  isRunnableCode c = true ->
  fst s = [CallCancelAll (document e)] ->
  _documentExecutions dw !! document e = Some e ->
  d_isLatest e dw = true ->
  d_token e ∉ d_cancelled dw -> d_token e ∉ d_disposed dw ->
  runCells e (c :: cells) (s :: schedule) dw = Some dw' ->
  runCells e [c] [s] dw = Some dw'
  /\ requests (kernel dw') = requests (kernel dw)
  /\ docRunState dw' !! document e = d_originalRunState e
  /\ d_isCancellationRequested e dw' = true
  /\ doc_resolve e dw' = dw'.
Proof.
  intros Hrun Hops Hreg Hl Hc Hd H.
  cbn [runCells] in *. rewrite Hrun in *.
  set (dw1 := with_currentCell (<[ d_token e := cell_id c ]> (currentCell dw)) dw) in *.
  unfold runCell in *. rewrite Hops in *.
  destruct (startCell (cell_id c) (kernel dw1)) as [ec k1] eqn:Es.
  cbn [applyDocOps fold_left applyDocOp] in *.
  set (dwA := with_kernel k1 dw1) in *.
  assert (HregA : cancelAllCellsExecution (document e) dwA = doc_cancel e dwA).
  { unfold cancelAllCellsExecution. cbn. by rewrite Hreg. }
  rewrite HregA in *.
  destruct (doc_cancel_live e (cell_id c) dwA) as (Hk & Hrs & Hcr & Hst & _).
  { exact Hl. } { exact Hc. } { exact Hd. }
  { cbn. apply lookup_insert_eq. }
  pose proof (startCell_registers (cell_id c) (kernel dw1)) as [Hr1 Hr2].
  rewrite Es in Hr1, Hr2. cbn [fst snd] in Hr1, Hr2.
  assert (Hkc : isCancellationRequested ec (kernel (doc_cancel e dwA)) = true).
  { rewrite Hk. cbn [kernel dwA with_kernel].
    unfold cancelCellExecution. rewrite Hr1.
    unfold isCancellationRequested. apply bool_decide_eq_true.
    rewrite KernelFacts.cancel_cancelled, Hr2.
    apply elem_of_union. left. by apply elem_of_singleton. }
  destruct (_doExecuteCell ec (cell_queries c) (snd s) (kernel (doc_cancel e dwA)))
    as [[rest k2]|] eqn:Ed; [|discriminate].
  pose proof (doExecuteCell_cancelled_requests _ _ _ _ _ _ Hkc Ed) as Hreq.
  assert (Hcr2 : d_isCancellationRequested e (with_kernel k2 (doc_cancel e dwA)) = true)
    by exact Hcr.
  rewrite Hcr2 in *. injection H as <-.
  split; [done|]. split; [|split; [exact Hrs|split; [exact Hcr|]]].
  - cbn [kernel with_kernel]. rewrite Hreq, Hk. cbn [kernel dwA with_kernel].
    rewrite KernelFacts.cancelCellExecution_requests.
    pose proof (KernelFacts.startCell_statics (cell_id c) (kernel dw1))
      as (_ & _ & _ & _ & _ & Hrq).
    rewrite Es in Hrq. exact Hrq.
  - unfold doc_resolve.
    assert (d_isLatest e (with_kernel k2 (doc_cancel e dwA)) = false) as ->
      by exact Hst.
    done.
Qed.

Definition cell7 : DocCell :=
  {| cell_id := 7; cell_kind := Code; cell_runnable := true;
     cell_queries := [ {| q := "is:open"; sort := None; order := None |} ] |}.

Definition cell8 : DocCell :=
  {| cell_id := 8; cell_kind := Code; cell_runnable := true;
     cell_queries := [ {| q := "is:closed"; sort := None; order := None |} ] |}.

Definition doc_registered1 : DocWorld := snd (startAll 1 (initial_over Kernel.initial)).

Lemma cancelled_run_starts_no_further_cell_witness :
  requests
    (kernel
       (default doc_registered1
          (runCells doc_run1 [cell7; cell8]
             [([CallCancelAll 1], [LibTurn [] None]); ([], [])] doc_registered1)))
  = [].
Proof.
  destruct (cancelled_run_starts_no_further_cell doc_run1 cell7 [cell8]
              ([CallCancelAll 1], [LibTurn [] None]) [([], [])] doc_registered1
              (default doc_registered1
                 (runCells doc_run1 [cell7; cell8]
                    [([CallCancelAll 1], [LibTurn [] None]); ([], [])]
                    doc_registered1)))
    as (_ & H & _).
  - reflexivity.
  - reflexivity.
  - vm_compute. reflexivity.
  - vm_compute. reflexivity.
  - change (d_token doc_run1 ∉ (∅ : gset nat)). apply not_elem_of_empty.
  - change (d_token doc_run1 ∉ (∅ : gset nat)). apply not_elem_of_empty.
  - vm_compute. reflexivity.
  - rewrite H. reflexivity.
Defined.

Lemma runCells_filter e cells : forall schedule dw,
  runCells e cells schedule dw
  = runCells e (List.filter isRunnableCode cells) schedule dw.
Proof.
  induction cells as [|c cells IH]; intros schedule dw; [done|].
  cbn [runCells List.filter]. destruct (isRunnableCode c) eqn:E; [|apply IH].
  cbn [runCells]. rewrite E. destruct schedule as [|s schedule]; [done|].
  destruct (runCell c s _); [|done].
  destruct (d_isCancellationRequested e d); [done|apply IH].
Qed.

(** Without requests for documents, the loop touches nothing of the
    document but [currentCell] and the cells. *)
Lemma runCells_quiet e cells : forall schedule dw dw',
  Forall (fun s : CellSchedule => fst s = []) schedule ->
  runCells e cells schedule dw = Some dw' ->
  d_tokens dw' = d_tokens dw /\ docRunState dw' = docRunState dw
  /\ d_cancelled dw' = d_cancelled dw.
Proof.
  induction cells as [|c cells IH]; intros schedule dw dw' Hq H; cbn [runCells] in H.
  - by injection H as <-.
  - destruct (isRunnableCode c); [|by apply (IH schedule)].
    destruct schedule as [|s schedule]; [discriminate|].
    apply Forall_cons in Hq as [Hs Hq].
    unfold runCell in H. rewrite Hs in H.
    destruct (startCell (cell_id c) _) as [ec k1].
    cbn [applyDocOps fold_left] in H.
    destruct (_doExecuteCell ec (cell_queries c) (snd s) _) as [[rest k2]|];
      [|discriminate].
    destruct (d_isCancellationRequested e _).
    + by injection H as <-.
    + apply IH in H as (-> & -> & ->); done.
Qed.

(** Markdown cells and cells that are not runnable are passed over.
    When no request for a document arrives during the run, the run of a
    document ends with the document in the state [Idle]. *)
Theorem executeAllCells_ends_idle (d : DocId) (cells : list DocCell)
    (schedule : list CellSchedule) (dw dw' : DocWorld) :
  Forall (fun s : CellSchedule => fst s = []) schedule ->
  executeAllCells d cells schedule dw = Some dw' ->
  docRunState dw' !! d = Some DocIdle
  /\ executeAllCells d (List.filter isRunnableCode cells) schedule dw = Some dw'.
Proof.
  intros Hq H. unfold executeAllCells in *.
  destruct (startAll d dw) as [e dw1] eqn:Es.
  rewrite <- runCells_filter.
  destruct (runCells e cells schedule dw1) as [dw2|] eqn:Er; [|discriminate].
  injection H as <-. split; [|done].
  apply runCells_quiet in Er as (Ht & _ & _); [|done].
  assert (Hl : d_isLatest e dw2 = true).
  { apply d_isLatest_true. rewrite Ht.
    unfold startAll, new_NotebookDocumentExecution in Es.
    injection Es as <- <-. cbn. apply lookup_insert_eq. }
  assert (Hd : document e = d).
  { unfold startAll, new_NotebookDocumentExecution in Es.
    by injection Es as <- _. }
  unfold doc_resolve. rewrite Hl, Hd. cbn. apply lookup_insert_eq.
Qed.

Lemma executeAllCells_ends_idle_witness :
  docRunState
    (default (initial_over Kernel.initial)
       (executeAllCells 1 [cell7]
          [([], [LibTurn [] None; SearchTurn [] (Response [] 0)])]
          (initial_over Kernel.initial))) !! 1
  = Some DocIdle.
Proof.
  destruct (executeAllCells_ends_idle 1 [cell7]
              [([], [LibTurn [] None; SearchTurn [] (Response [] 0)])]
              (initial_over Kernel.initial)
              (default (initial_over Kernel.initial)
                 (executeAllCells 1 [cell7]
                    [([], [LibTurn [] None; SearchTurn [] (Response [] 0)])]
                    (initial_over Kernel.initial)))) as [H _].
  - repeat constructor.
  - vm_compute. reflexivity.
  - exact H.
Defined.

End DocumentsFacts.
